(** * lstypec, the C example client of libtypec-rs

    A shallow embedding of [c_example_lstypec] (examples/c/lstypec.c) and
    the properties of its conversation with the library.

    The library behind [libtypec-rs.h] is an external collaborator: it is
    a record of functions over an abstract library state, one function for
    each entry point the client calls.  The client is a computation in a
    small state-and-exit monad that threads the library state and a log of
    every call with its answer.

    Integers are those of Linux on a 64-bit machine: [int] and
    [unsigned int] have 32 bits, [size_t] has 64. *)

From Stdlib Require Import ZArith List String Bool Lia Sorted.
Import ListNotations.
Open Scope Z_scope.

(* ------------------------------------------------------------------ *)
(** ** Values *)

(** Pointers are addresses; [NULL] is address 0. *)
Definition ptr := Z.

Definition NULL : ptr := 0.

(** [errno.h] on Linux. *)
Definition ENOTSUP : Z := 95.

(** [unsigned int] is 32 bits wide. *)
Definition UINT_MAX : Z := 4294967295.

(** Modelled from the spec: [libtypec-rs.h] is not among the sources;
    these are its enumerations, with the constants the client names. *)
Inductive PdoType := PdoType_Source | PdoType_Sink.

Inductive PdoSourceCapabilitiesType :=
  PdoSourceCapabilitiesType_CurrentSupportedSourceCapabilities.

Inductive GetAlternateModesRecipient :=
  | GetAlternateModesRecipient_Connector
  | GetAlternateModesRecipient_Sop
  | GetAlternateModesRecipient_SopPrime.

Inductive PdMessageRecipient :=
  PdMessageRecipient_Sop | PdMessageRecipient_SopPrime.

Inductive PdMessageResponseType := PdMessageResponseType_DiscoverIdentity.

(** Modelled from the spec: the header [libtypec-rs.h] that declares the
    backend enumeration is not among the sources; the backend selector is
    an enum with Sysfs = 1 and UcsiDebugfs = 2. *)
Definition OsBackends_Sysfs : Z := 1.

(** Modelled from the spec: the second backend of the same enum. *)
Definition OsBackends_UcsiDebugfs : Z := 2.

(** The two fields of [struct UcsiCapability] the client reads; both
    are unsigned. *)
Record UcsiCapability := mkCapability {
  num_connectors : Z;
  pd_version : Z
}.

(** What a variable-length call leaves in its three out-parameters:
    array pointer, element count, memory-size token. *)
Record triple := Triple {
  t_ptr : ptr;
  t_len : Z;
  t_mem_sz : Z
}.

(* ------------------------------------------------------------------ *)
(** ** The library interface *)

(** Every entry point takes the library state and gives the next one.
    A call with out-parameters answers its [int] result together with
    what it stored: [None] when it left the out-parameters untouched. *)
Record LibTypec (L : Type) := mkLib {
  libtypec_rs_new : L -> Z -> L * (Z * option ptr);
  libtypec_rs_destroy : L -> ptr -> L;
  libtypec_rs_get_capabilities :
    L -> ptr -> L * (Z * option UcsiCapability);
  libtypec_rs_get_conn_capabilities : L -> ptr -> Z -> L * Z;
  libtypec_rs_get_pdos :
    L -> ptr -> Z -> bool -> Z -> Z -> PdoType ->
    PdoSourceCapabilitiesType -> Z -> L * (Z * option triple);
  libtypec_rs_destroy_pdos : L -> triple -> L;
  libtypec_rs_get_cable_properties : L -> ptr -> Z -> L * Z;
  libtypec_rs_get_alternate_modes :
    L -> ptr -> GetAlternateModesRecipient -> Z ->
    L * (Z * option triple);
  libtypec_rs_destroy_alternate_modes : L -> triple -> L;
  libtypec_rs_get_pd_message :
    L -> ptr -> Z -> PdMessageRecipient -> PdMessageResponseType -> L * Z
}.

Arguments libtypec_rs_new {L}.

Arguments libtypec_rs_destroy {L}.

Arguments libtypec_rs_get_capabilities {L}.

Arguments libtypec_rs_get_conn_capabilities {L}.

Arguments libtypec_rs_get_pdos {L}.

Arguments libtypec_rs_destroy_pdos {L}.

Arguments libtypec_rs_get_cable_properties {L}.

Arguments libtypec_rs_get_alternate_modes {L}.

Arguments libtypec_rs_destroy_alternate_modes {L}.

Arguments libtypec_rs_get_pd_message {L}.

(* ------------------------------------------------------------------ *)
(** ** The log *)

(** One entry for each library call, with its arguments and its answer,
    for each array element handed to a printer, and for each line written
    to stderr.  Headings and blank lines written to stdout, and the
    printers of fixed-size structures, are left out: they take part in no
    decision of the client. *)
Inductive event :=
  | Ev_new (backend : Z) (ret : Z) (stored : option ptr)
  | Ev_destroy (typec : ptr)
  | Ev_get_capabilities (typec : ptr) (ret : Z)
      (stored : option UcsiCapability)
  | Ev_get_conn_capabilities (typec : ptr) (conn : Z) (ret : Z)
  | Ev_get_pdos (typec : ptr) (conn : Z) (partner : bool) (offset num : Z)
      (ty : PdoType) (src : PdoSourceCapabilitiesType) (pd_ver : Z)
      (ret : Z) (stored : option triple)
  | Ev_destroy_pdos (t : triple)
  | Ev_get_cable_properties (typec : ptr) (conn : Z) (ret : Z)
  | Ev_get_alternate_modes (typec : ptr)
      (recipient : GetAlternateModesRecipient) (conn : Z)
      (ret : Z) (stored : option triple)
  | Ev_destroy_alternate_modes (t : triple)
  | Ev_get_pd_message (typec : ptr) (conn : Z)
      (recipient : PdMessageRecipient) (rt : PdMessageResponseType)
      (ret : Z)
  | Ev_PdPdo_printf (array : ptr) (index : Z)
  | Ev_UcsiAlternateMode_printf (array : ptr) (index : Z)
  | Ev_stderr (msg : string).

Definition trace := list event.

(** How a run ends: the [return 0] after the connector loop, one of the
    earlier [return ret], a failed [assert], the read of a variable that
    was never written, or a loop that is still running when the step
    budget is spent. *)
Inductive outcome :=
  | Completed
  | EarlyReturn (ret : Z)
  | AssertFailed
  | Undefined
  | OutOfFuel.

Definition exit_status (o : outcome) : option Z :=
  match o with
  | Completed => Some 0
  | EarlyReturn ret => Some ret
  | AssertFailed | Undefined | OutOfFuel => None
  end.

(* ------------------------------------------------------------------ *)
(** ** The client *)

Section Client.

Context {L : Type} (lib : LibTypec L).

(** A computation takes the library state and the log so far; it goes
    on with a value, or stops with an outcome. *)
Record config := mkConfig { lib_state : L; log : trace }.

Inductive result (A : Type) :=
  | Go (a : A) (c : config)
  | Halt (o : outcome) (c : config).

Arguments Go {A}.

Arguments Halt {A}.

Definition M (A : Type) := config -> result A.

Definition ret {A} (a : A) : M A := fun c => Go a c.

Definition bind {A B} (m : M A) (k : A -> M B) : M B :=
  fun c => match m c with
           | Go a c' => k a c'
           | Halt o c' => Halt o c'
           end.

Definition halt {A} (o : outcome) : M A := fun c => Halt o c.

Definition emit (e : event) : M unit :=
  fun c => Go tt (mkConfig (lib_state c) (log c ++ [e])).

Notation "x <- m ;; k" := (bind m (fun x => k))
  (at level 61, m at next level, right associativity).

Notation "m ;; k" := (bind m (fun _ => k))
  (at level 61, right associativity).

Notation "' p <- m ;; k" := (bind m (fun x => let 'p := x in k))
  (at level 61, p pattern, m at next level, right associativity).

(** Reading a variable that may still be indeterminate. *)
Definition read {A} (v : option A) : M A :=
  match v with
  | Some a => ret a
  | None => halt Undefined
  end.

(** What an out-variable holds after a call: the stored value, or what
    it held before when the call stored nothing. *)
Definition after_call {A} (stored : option A) (before : option A)
  : option A :=
  match stored with
  | Some a => Some a
  | None => before
  end.

Definition assert (b : bool) : M unit :=
  if b then ret tt else halt AssertFailed.

Definition fprintf_stderr (msg : string) : M unit := emit (Ev_stderr msg).

(** [return ret;] *)
Definition return_ {A} (r : Z) : M A := halt (EarlyReturn r).

(** One wrapper for each entry point: make the call, log it with its
    answer. *)
Definition call_new (backend : Z) : M (Z * option ptr) :=
  fun c =>
    let '(s, (r, stored)) := libtypec_rs_new lib (lib_state c) backend in
    Go (r, stored) (mkConfig s (log c ++ [Ev_new backend r stored])).

Definition call_destroy (typec : ptr) : M unit :=
  fun c =>
    Go tt (mkConfig (libtypec_rs_destroy lib (lib_state c) typec)
                    (log c ++ [Ev_destroy typec])).

Definition call_get_capabilities (typec : ptr)
  : M (Z * option UcsiCapability) :=
  fun c =>
    let '(s, (r, stored)) :=
      libtypec_rs_get_capabilities lib (lib_state c) typec in
    Go (r, stored)
       (mkConfig s (log c ++ [Ev_get_capabilities typec r stored])).

Definition call_get_conn_capabilities (typec : ptr) (conn : Z) : M Z :=
  fun c =>
    let '(s, r) :=
      libtypec_rs_get_conn_capabilities lib (lib_state c) typec conn in
    Go r (mkConfig s (log c ++ [Ev_get_conn_capabilities typec conn r])).

Definition call_get_pdos (typec : ptr) (conn : Z) (partner : bool)
    (offset num : Z) (ty : PdoType) (src : PdoSourceCapabilitiesType)
    (pd_ver : Z) : M (Z * option triple) :=
  fun c =>
    let '(s, (r, stored)) :=
      libtypec_rs_get_pdos lib (lib_state c) typec conn partner offset num
                           ty src pd_ver in
    Go (r, stored)
       (mkConfig s (log c ++ [Ev_get_pdos typec conn partner offset num
                                          ty src pd_ver r stored])).

Definition call_destroy_pdos (t : triple) : M unit :=
  fun c =>
    Go tt (mkConfig (libtypec_rs_destroy_pdos lib (lib_state c) t)
                    (log c ++ [Ev_destroy_pdos t])).

Definition call_get_cable_properties (typec : ptr) (conn : Z) : M Z :=
  fun c =>
    let '(s, r) :=
      libtypec_rs_get_cable_properties lib (lib_state c) typec conn in
    Go r (mkConfig s (log c ++ [Ev_get_cable_properties typec conn r])).

Definition call_get_alternate_modes (typec : ptr)
    (recipient : GetAlternateModesRecipient) (conn : Z)
  : M (Z * option triple) :=
  fun c =>
    let '(s, (r, stored)) :=
      libtypec_rs_get_alternate_modes lib (lib_state c) typec recipient
                                      conn in
    Go (r, stored)
       (mkConfig s (log c ++ [Ev_get_alternate_modes typec recipient conn
                                                     r stored])).

Definition call_destroy_alternate_modes (t : triple) : M unit :=
  fun c =>
    Go tt (mkConfig
             (libtypec_rs_destroy_alternate_modes lib (lib_state c) t)
             (log c ++ [Ev_destroy_alternate_modes t])).

Definition call_get_pd_message (typec : ptr) (conn : Z)
    (recipient : PdMessageRecipient) (rt : PdMessageResponseType) : M Z :=
  fun c =>
    let '(s, r) :=
      libtypec_rs_get_pd_message lib (lib_state c) typec conn recipient
                                 rt in
    Go r (mkConfig s (log c ++ [Ev_get_pd_message typec conn recipient
                                                  rt r])).

(** [for (size_t i = 0; i < out_npdos; i++) PdPdo_printf(&out_pdos[i]);]
    Counter and bound have the same type, so the counter reaches the
    bound without wrapping and the body runs once for each index below
    it: [remaining] is the number of iterations left. *)
Fixpoint print_pdos (remaining : nat) (i : Z) (out_pdos : ptr) : M unit :=
  match remaining with
  | O => ret tt
  | S n => emit (Ev_PdPdo_printf out_pdos i) ;;
           print_pdos n (i + 1) out_pdos
  end.

(** [for (unsigned int i = 0; i < nmodes; i++)
       UcsiAlternateMode_printf(&alt_modes[i]);]
    The counter is an [unsigned int] and the bound a [size_t]: the
    comparison is made at the width of [size_t] and the increment wraps
    at [UINT_MAX].  [fuel] bounds the number of iterations followed. *)
Fixpoint print_alt_modes (fuel : nat) (i : Z) (alt_modes : ptr)
    (nmodes : Z) : M unit :=
  if i <? nmodes then
    match fuel with
    | O => halt OutOfFuel
    | S f => emit (Ev_UcsiAlternateMode_printf alt_modes i) ;;
             print_alt_modes f ((i + 1) mod (UINT_MAX + 1)) alt_modes
                             nmodes
    end
  else ret tt.

(** Lines 50-54. *)
Definition conn_capabilities_block (typec : ptr) (connector_nr : Z)
  : M unit :=
  r <- call_get_conn_capabilities typec connector_nr ;;
  if negb (r =? 0) then
    fprintf_stderr "Failed to get connector %zu\n" ;;
    return_ r
  else ret tt.

(** Lines 61-78, 82-100, 202-217 and 223-239: the four PDO queries differ
    in [partner], in the PDO type and in the message.  [out] is the
    content of [out_pdos], [out_npdos], [out_mem_sz] before the call; the
    result is their content after it. *)
Definition pdos_block (typec : ptr) (connector_nr : Z) (partner : bool)
    (ty : PdoType) (pd_ver : Z) (msg : string) (out : triple)
  : M triple :=
  '(r, stored) <- call_get_pdos typec connector_nr partner 0 0 ty
                    PdoSourceCapabilitiesType_CurrentSupportedSourceCapabilities
                    pd_ver ;;
  let out := match stored with Some t => t | None => out end in
  if r =? 0 then
    assert (negb (t_ptr out =? NULL)) ;;
    print_pdos (Z.to_nat (t_len out)) 0 (t_ptr out) ;;
    call_destroy_pdos out ;;
    ret out
  else if negb (r =? - ENOTSUP) then
    fprintf_stderr msg ;;
    return_ r
  else ret out.

(** Lines 105-112. *)
Definition cable_properties_block (typec : ptr) (connector_nr : Z)
  : M unit :=
  r <- call_get_cable_properties typec connector_nr ;;
  if r =? 0 then ret tt
  else if negb (r =? - ENOTSUP) then
    fprintf_stderr "Failed to get cable properties\n" ;;
    return_ r
  else ret tt.

(** Lines 119-133, 137-151 and 170-182: the three alternate-mode queries
    differ in the recipient and in the message.  [modes] is the content
    of [alt_modes], [nmodes], [modes_mem_sz], which are declared inside
    the loop body without an initialiser. *)
Definition alternate_modes_block (fuel : nat) (typec : ptr)
    (recipient : GetAlternateModesRecipient) (connector_nr : Z)
    (msg : string) (modes : option triple) : M (option triple) :=
  '(r, stored) <- call_get_alternate_modes typec recipient connector_nr ;;
  let modes := after_call stored modes in
  if r =? 0 then
    m <- read modes ;;
    print_alt_modes fuel 0 (t_ptr m) (t_len m) ;;
    call_destroy_alternate_modes m ;;
    ret modes
  else if negb (r =? - ENOTSUP) then
    fprintf_stderr msg ;;
    return_ r
  else ret modes.

(** Lines 155-166 and 185-196. *)
Definition pd_message_block (typec : ptr) (connector_nr : Z)
    (recipient : PdMessageRecipient) (msg : string) : M unit :=
  r <- call_get_pd_message typec connector_nr recipient
         PdMessageResponseType_DiscoverIdentity ;;
  if r =? 0 then ret tt
  else if negb (r =? - ENOTSUP) then
    fprintf_stderr msg ;;
    return_ r
  else ret tt.

(** The body of the connector loop, lines 48-241. *)
Definition connector_body (fuel : nat) (typec : ptr)
    (capabilities : UcsiCapability) (connector_nr : Z) (out : triple)
  : M triple :=
  conn_capabilities_block typec connector_nr ;;
  out <- pdos_block typec connector_nr false PdoType_Source
           (pd_version capabilities)
           "Failed to get the Connector Source PDOs %zu\n" out ;;
  out <- pdos_block typec connector_nr false PdoType_Sink
           (pd_version capabilities)
           "Failed to get the Connector Sink PDOs %zu\n" out ;;
  cable_properties_block typec connector_nr ;;
  modes <- alternate_modes_block fuel typec
             GetAlternateModesRecipient_Connector connector_nr
             "Failed to get connector alt modes\n" None ;;
  modes <- alternate_modes_block fuel typec
             GetAlternateModesRecipient_SopPrime connector_nr
             "Failed to get SOP' alt modes\n" modes ;;
  pd_message_block typec connector_nr PdMessageRecipient_SopPrime
    "Failed to get the DiscoverIdentity PD message for SOP'\n" ;;
  modes <- alternate_modes_block fuel typec
             GetAlternateModesRecipient_Sop connector_nr
             "Failed to get SOP alt modes\n" modes ;;
  pd_message_block typec connector_nr PdMessageRecipient_Sop
    "Failed to get the DiscoverIdentity PD message for SOP\n" ;;
  let out := Triple NULL 0 0 in
  out <- pdos_block typec connector_nr true PdoType_Source
           (pd_version capabilities)
           "Failed to get Partner Source PDOs" out ;;
  let out := Triple NULL 0 0 in
  out <- pdos_block typec connector_nr true PdoType_Sink
           (pd_version capabilities)
           "Failed to get Partner Sink PDOs" out ;;
  ret out.

(** Lines 46-47 and 242: [connector_nr] and the bound are both unsigned
    and the bound does not change, so the body runs once for each index
    below the bound; [remaining] is the number of iterations left. *)
Fixpoint connector_loop (fuel : nat) (typec : ptr)
    (capabilities : UcsiCapability) (remaining : nat) (connector_nr : Z)
    (out : triple) : M triple :=
  match remaining with
  | O => ret out
  | S n =>
      out <- connector_body fuel typec capabilities connector_nr out ;;
      connector_loop fuel typec capabilities n (connector_nr + 1) out
  end.

(** Line 26. *)
Definition backend_type (backend : Z) : Z :=
  if backend =? 0 then OsBackends_Sysfs else backend.

(** Lines 20-248.  [typec] and [capabilities] are declared without an
    initialiser and read after the call that should fill them. *)
Definition c_example_lstypec (fuel : nat) (backend : Z) : M unit :=
  let out := Triple NULL 0 0 in
  '(r, stored) <- call_new (backend_type backend) ;;
  typec <- read stored ;;
  if typec =? NULL then
    fprintf_stderr "Failed to create TypecRs instance\n" ;;
    return_ r
  else
    '(r, stored) <- call_get_capabilities typec ;;
    if negb (r =? 0) then
      fprintf_stderr "Failed to get capabilities\n" ;;
      return_ r
    else
      capabilities <- read stored ;;
      connector_loop fuel typec capabilities
        (Z.to_nat (num_connectors capabilities)) 0 out ;;
      call_destroy typec ;;
      ret tt.

(** A run from library state [s]: the log and how the run ended.
    [fuel] is the budget of each alternate-mode print loop. *)
Definition run (fuel : nat) (backend : Z) (s : L) : trace * outcome :=
  match c_example_lstypec fuel backend (mkConfig s []) with
  | Go _ c => (log c, Completed)
  | Halt o c => (log c, o)
  end.

End Client.

Arguments config L : clear implicits.

Arguments result L A : clear implicits.

Arguments M L A : clear implicits.

Arguments Go {L A}.

Arguments Halt {L A}.

Arguments mkConfig {L}.

Arguments log {L}.

Arguments lib_state {L}.

(* ------------------------------------------------------------------ *)
(** ** Concrete libraries *)

(** A library without state: each entry point answers from its
    arguments alone. *)
Definition stateless_lib
    (new_ans : Z * option ptr)
    (caps_ans : Z * option UcsiCapability)
    (conn_caps_ans : Z -> Z)
    (pdos_ans : Z -> bool -> PdoType -> Z * option triple)
    (cable_ans : Z -> Z)
    (modes_ans : GetAlternateModesRecipient -> Z -> Z * option triple)
    (pd_msg_ans : Z -> PdMessageRecipient -> Z)
  : LibTypec unit :=
  {| libtypec_rs_new := fun s _ => (s, new_ans);
     libtypec_rs_destroy := fun s _ => s;
     libtypec_rs_get_capabilities := fun s _ => (s, caps_ans);
     libtypec_rs_get_conn_capabilities :=
       fun s _ conn => (s, conn_caps_ans conn);
     libtypec_rs_get_pdos :=
       fun s _ conn partner _ _ ty _ _ => (s, pdos_ans conn partner ty);
     libtypec_rs_destroy_pdos := fun s _ => s;
     libtypec_rs_get_cable_properties := fun s _ conn => (s, cable_ans conn);
     libtypec_rs_get_alternate_modes :=
       fun s _ recipient conn => (s, modes_ans recipient conn);
     libtypec_rs_destroy_alternate_modes := fun s _ => s;
     libtypec_rs_get_pd_message :=
       fun s _ conn recipient _ => (s, pd_msg_ans conn recipient) |}.

(** A host with two connectors and no partner attached: the partner
    queries answer [-ENOTSUP], the connector's own PDOs and alternate
    modes are there. *)
Definition no_partner_lib : LibTypec unit :=
  stateless_lib
    (0, Some 4096)
    (0, Some (mkCapability 2 768))
    (fun _ => 0)
    (fun conn partner ty =>
       if partner then (- ENOTSUP, None)
       else (0, Some (Triple (8192 + 256 * conn) 2 64)))
    (fun _ => - ENOTSUP)
    (fun recipient conn =>
       match recipient with
       | GetAlternateModesRecipient_Connector =>
           (0, Some (Triple (16384 + 256 * conn) 1 16))
       | _ => (- ENOTSUP, None)
       end)
    (fun _ _ => - ENOTSUP).


(** No partner is attached, and on connector 1 the source PDO query
    answers 0 with an empty array at [NULL]. *)
Definition null_array_lib : LibTypec unit :=
  stateless_lib
    (0, Some 4096)
    (0, Some (mkCapability 2 768))
    (fun _ => 0)
    (fun conn partner ty =>
       if partner then (- ENOTSUP, None)
       else if conn =? 1 then (0, Some (Triple NULL 0 0))
       else (0, Some (Triple 8192 2 64)))
    (fun _ => - ENOTSUP)
    (fun _ _ => (- ENOTSUP, None))
    (fun _ _ => - ENOTSUP).

(** The source PDO query stores a triple and answers [-ENOTSUP]; the
    sink PDO query answers 0 and stores nothing. *)
Definition stale_triple_lib : LibTypec unit :=
  stateless_lib
    (0, Some 4096)
    (0, Some (mkCapability 1 768))
    (fun _ => 0)
    (fun conn partner ty =>
       if partner then (- ENOTSUP, None)
       else match ty with
            | PdoType_Source => (- ENOTSUP, Some (Triple 8192 2 64))
            | PdoType_Sink => (0, None)
            end)
    (fun _ => - ENOTSUP)
    (fun _ _ => (- ENOTSUP, None))
    (fun _ _ => - ENOTSUP).

(** [libtypec_rs_get_capabilities] fails with [-EIO]. *)
Definition io_error_lib : LibTypec unit :=
  stateless_lib
    (0, Some 4096)
    (-5, None)
    (fun _ => 0)
    (fun _ _ _ => (- ENOTSUP, None))
    (fun _ => - ENOTSUP)
    (fun _ _ => (- ENOTSUP, None))
    (fun _ _ => - ENOTSUP).

(** The backend is not there: [libtypec_rs_new] fails with [-ENODEV]
    and stores [NULL]. *)
Definition no_backend_lib : LibTypec unit :=
  stateless_lib
    (-19, Some NULL)
    (-5, None)
    (fun _ => 0)
    (fun _ _ _ => (- ENOTSUP, None))
    (fun _ => - ENOTSUP)
    (fun _ _ => (- ENOTSUP, None))
    (fun _ _ => - ENOTSUP).

(** The connector's alternate modes come as an array of 2^32 elements. *)
Definition many_modes_lib : LibTypec unit :=
  stateless_lib
    (0, Some 4096)
    (0, Some (mkCapability 1 768))
    (fun _ => 0)
    (fun _ _ _ => (- ENOTSUP, None))
    (fun _ => - ENOTSUP)
    (fun recipient conn =>
       match recipient with
       | GetAlternateModesRecipient_Connector =>
           (0, Some (Triple 16384 4294967296 68719476736))
       | _ => (- ENOTSUP, None)
       end)
    (fun _ _ => - ENOTSUP).

(* ------------------------------------------------------------------ *)
(** ** What is read off a log *)

(** The per-connector queries of the interface. *)
Inductive query :=
  | Q_conn_capabilities
  | Q_pdos (partner : bool) (ty : PdoType)
  | Q_cable_properties
  | Q_alternate_modes (recipient : GetAlternateModesRecipient)
  | Q_pd_message (recipient : PdMessageRecipient).

Definition query_of (e : event) : option (query * Z) :=
  match e with
  | Ev_get_conn_capabilities _ conn _ => Some (Q_conn_capabilities, conn)
  | Ev_get_pdos _ conn partner _ _ ty _ _ _ _ =>
      Some (Q_pdos partner ty, conn)
  | Ev_get_cable_properties _ conn _ => Some (Q_cable_properties, conn)
  | Ev_get_alternate_modes _ recipient conn _ _ =>
      Some (Q_alternate_modes recipient, conn)
  | Ev_get_pd_message _ conn recipient _ _ =>
      Some (Q_pd_message recipient, conn)
  | _ => None
  end.

(** The per-connector queries of a log, in the order they were made. *)
Fixpoint queries (tr : trace) : list (query * Z) :=
  match tr with
  | [] => []
  | e :: tr' =>
      match query_of e with
      | Some q => q :: queries tr'
      | None => queries tr'
      end
  end.

(** The queries of one pass through the loop body, in source order. *)
Definition per_connector : list query :=
  [ Q_conn_capabilities;
    Q_pdos false PdoType_Source;
    Q_pdos false PdoType_Sink;
    Q_cable_properties;
    Q_alternate_modes GetAlternateModesRecipient_Connector;
    Q_alternate_modes GetAlternateModesRecipient_SopPrime;
    Q_pd_message PdMessageRecipient_SopPrime;
    Q_alternate_modes GetAlternateModesRecipient_Sop;
    Q_pd_message PdMessageRecipient_Sop;
    Q_pdos true PdoType_Source;
    Q_pdos true PdoType_Sink ].

(** All of them for connector [first], then for [first + 1], and so on
    for [count] connectors. *)
Fixpoint all_queries (count : nat) (first : Z) : list (query * Z) :=
  match count with
  | O => []
  | S n => map (fun q => (q, first)) per_connector
           ++ all_queries n (first + 1)
  end.

(** The result code of a call that has one. *)
Definition ret_of (e : event) : option Z :=
  match e with
  | Ev_new _ r _ => Some r
  | Ev_get_capabilities _ r _ => Some r
  | Ev_get_conn_capabilities _ _ r => Some r
  | Ev_get_pdos _ _ _ _ _ _ _ _ r _ => Some r
  | Ev_get_cable_properties _ _ r => Some r
  | Ev_get_alternate_modes _ _ _ r _ => Some r
  | Ev_get_pd_message _ _ _ _ r => Some r
  | _ => None
  end.

(** The handles given to [libtypec_rs_destroy]. *)
Fixpoint destroyed (tr : trace) : list ptr :=
  match tr with
  | [] => []
  | Ev_destroy h :: tr' => h :: destroyed tr'
  | _ :: tr' => destroyed tr'
  end.

(** The backends asked of [libtypec_rs_new]. *)
Fixpoint created (tr : trace) : list Z :=
  match tr with
  | [] => []
  | Ev_new b _ _ :: tr' => b :: created tr'
  | _ :: tr' => created tr'
  end.

Definition is_get_capabilities (e : event) : bool :=
  match e with Ev_get_capabilities _ _ _ => true | _ => false end.

(** The [pdVersion] argument of a [libtypec_rs_get_pdos] call. *)
Definition pd_version_arg (e : event) : option Z :=
  match e with
  | Ev_get_pdos _ _ _ _ _ _ _ v _ _ => Some v
  | _ => None
  end.

(* ------------------------------------------------------------------ *)
(** ** The print loops, as lists of indices *)

(** The indices [first], [first + 1], ... of [count] array elements. *)
Fixpoint indices (count : nat) (first : Z) : list Z :=
  match count with
  | O => []
  | S n => first :: indices n (first + 1)
  end.

(** The indices the alternate-mode loop visits within [fuel] iterations,
    and whether it has left the loop by then. *)
Fixpoint alt_mode_visits (fuel : nat) (i nmodes : Z) : list Z * bool :=
  if i <? nmodes then
    match fuel with
    | O => ([], false)
    | S f =>
        let '(l, done) :=
          alt_mode_visits f ((i + 1) mod (UINT_MAX + 1)) nmodes in
        (i :: l, done)
    end
  else ([], true).

(* ------------------------------------------------------------------ *)
(** ** A program logic over the log *)

(** From a log satisfying [P], the computation either goes on with a
    value and a log satisfying [Q], or stops with an outcome and a log
    satisfying [E]. *)
Definition hoare {L A : Type} (P : trace -> Prop) (m : M L A)
    (Q : A -> trace -> Prop) (E : outcome -> trace -> Prop) : Prop :=
  forall c, P (log c) ->
    match m c with
    | Go a c' => Q a (log c')
    | Halt o c' => E o (log c')
    end.

(* ------------------------------------------------------------------ *)
(** ** The form of a log *)

(** What holds of every event the connector loop adds: it is no call to
    [libtypec_rs_new], [libtypec_rs_destroy] or
    [libtypec_rs_get_capabilities], every query is made on the handle
    [typec], and every PDO query passes the cached PD version. *)
Definition inner (typec : ptr) (caps : UcsiCapability) (e : event)
  : Prop :=
  match e with
  | Ev_new _ _ _ | Ev_destroy _ | Ev_get_capabilities _ _ _ => False
  | Ev_get_conn_capabilities h _ _ => h = typec
  | Ev_get_pdos h _ _ _ _ _ src v _ _ => h = typec /\ v = pd_version caps
  | Ev_get_cable_properties h _ _ => h = typec
  | Ev_get_alternate_modes h _ _ _ _ => h = typec
  | Ev_get_pd_message h _ _ _ _ => h = typec
  | _ => True
  end.

(** An answer after which the client goes on: 0 from a mandatory query,
    0 or [-ENOTSUP] from an optional one. *)
Definition survivable (e : event) : Prop :=
  match e with
  | Ev_get_capabilities _ r _ => r = 0
  | Ev_get_conn_capabilities _ _ r => r = 0
  | Ev_get_pdos _ _ _ _ _ _ _ _ r _ => r = 0 \/ r = - ENOTSUP
  | Ev_get_cable_properties _ _ r => r = 0 \/ r = - ENOTSUP
  | Ev_get_alternate_modes _ _ _ r _ => r = 0 \/ r = - ENOTSUP
  | Ev_get_pd_message _ _ _ _ r => r = 0 \/ r = - ENOTSUP
  | _ => True
  end.

(** An answer after which the client gives up: a nonzero result from a
    mandatory query, a result other than 0 and [-ENOTSUP] from an
    optional one. *)
Definition fatal (e : event) : Prop :=
  match e with
  | Ev_get_capabilities _ r _ => r <> 0
  | Ev_get_conn_capabilities _ _ r => r <> 0
  | Ev_get_pdos _ _ _ _ _ _ _ _ r _ => r <> 0 /\ r <> - ENOTSUP
  | Ev_get_cable_properties _ _ r => r <> 0 /\ r <> - ENOTSUP
  | Ev_get_alternate_modes _ _ _ r _ => r <> 0 /\ r <> - ENOTSUP
  | Ev_get_pd_message _ _ _ _ r => r <> 0 /\ r <> - ENOTSUP
  | _ => False
  end.

(** How the events of a stopped loop end.  An early return comes right
    after a fatal answer and the message about it, and returns that
    answer's result; every answer before it was survivable.  Any other
    stop comes after survivable answers only. *)
Definition halted_on (o : outcome) (post : trace) : Prop :=
  match o with
  | EarlyReturn r =>
      exists post' e msg,
        post = post' ++ [e; Ev_stderr msg] /\
        ret_of e = Some r /\ fatal e /\ Forall survivable post'
  | _ => Forall survivable post
  end.

Definition shape (hd : trace) (typec : ptr) (caps : UcsiCapability)
    (X : list (query * Z)) (tr : trace) : Prop :=
  exists post,
    tr = hd ++ post /\ Forall (inner typec caps) post /\
    Forall survivable post /\ queries post = X.

Definition stopped (hd : trace) (typec : ptr) (caps : UcsiCapability)
    (o : outcome) (tr : trace) : Prop :=
  exists post,
    tr = hd ++ post /\ Forall (inner typec caps) post /\
    o <> Completed /\ halted_on o post.

(** The forms a run can take, whatever the library answers:
    - the creation call stored nothing and the handle is read
      uninitialised;
    - the creation call stored [NULL];
    - [libtypec_rs_get_capabilities] failed;
    - it answered 0 without filling the structure;
    - the connector loop stopped early;
    - the loop ran for every connector and the handle was destroyed. *)
Inductive run_form (backend : Z) : trace -> outcome -> Prop :=
  | form_no_handle r :
      run_form backend [Ev_new (backend_type backend) r None] Undefined
  | form_null_handle r msg :
      run_form backend
        [Ev_new (backend_type backend) r (Some NULL); Ev_stderr msg]
        (EarlyReturn r)
  | form_no_capabilities r0 typec r st msg :
      typec <> NULL -> r <> 0 ->
      run_form backend
        [Ev_new (backend_type backend) r0 (Some typec);
         Ev_get_capabilities typec r st; Ev_stderr msg]
        (EarlyReturn r)
  | form_capabilities_unset r0 typec :
      typec <> NULL ->
      run_form backend
        [Ev_new (backend_type backend) r0 (Some typec);
         Ev_get_capabilities typec 0 None]
        Undefined
  | form_stopped r0 typec caps post o :
      typec <> NULL ->
      Forall (inner typec caps) post ->
      o <> Completed ->
      halted_on o post ->
      run_form backend
        ([Ev_new (backend_type backend) r0 (Some typec);
          Ev_get_capabilities typec 0 (Some caps)] ++ post)
        o
  | form_completed r0 typec caps post :
      typec <> NULL ->
      Forall (inner typec caps) post ->
      Forall survivable post ->
      queries post = all_queries (Z.to_nat (num_connectors caps)) 0 ->
      run_form backend
        ([Ev_new (backend_type backend) r0 (Some typec);
          Ev_get_capabilities typec 0 (Some caps)] ++ post
         ++ [Ev_destroy typec])
        Completed.

(* ------------------------------------------------------------------ *)
(** ** Ownership of the arrays *)

Inductive array_kind := PdoArray | AltModeArray.

(** The array a successful variable-length call hands to the client. *)
Definition granted (e : event) : option (array_kind * triple) :=
  match e with
  | Ev_get_pdos _ _ _ _ _ _ _ _ r (Some t) =>
      if r =? 0 then Some (PdoArray, t) else None
  | Ev_get_alternate_modes _ _ _ r (Some t) =>
      if r =? 0 then Some (AltModeArray, t) else None
  | _ => None
  end.

(** The array a destroyer call gives back to the library. *)
Definition released (e : event) : option (array_kind * triple) :=
  match e with
  | Ev_destroy_pdos t => Some (PdoArray, t)
  | Ev_destroy_alternate_modes t => Some (AltModeArray, t)
  | _ => None
  end.

(** The array element a printer call reads. *)
Definition touched (e : event) : option (array_kind * ptr * Z) :=
  match e with
  | Ev_PdPdo_printf p i => Some (PdoArray, p, i)
  | Ev_UcsiAlternateMode_printf p i => Some (AltModeArray, p, i)
  | _ => None
  end.

Definition is_variable_length_call (e : event) : bool :=
  match e with
  | Ev_get_pdos _ _ _ _ _ _ _ _ _ _ => true
  | Ev_get_alternate_modes _ _ _ _ _ => true
  | _ => false
  end.

(** What the client holds between two events: nothing, or one array that
    was granted and not released yet. *)
Definition holding := option (array_kind * triple).

(** One event of a disciplined client.  A variable-length call is made
    with nothing held and leaves the client holding what it granted; an
    element is read inside the held array; a destroyer gets the held
    triple and nothing else; anything else happens with nothing held. *)
Inductive hold_step : holding -> event -> holding -> Prop :=
  | hold_call e :
      is_variable_length_call e = true ->
      hold_step None e (granted e)
  | hold_touch e k t i :
      touched e = Some (k, t_ptr t, i) ->
      0 <= i < t_len t ->
      hold_step (Some (k, t)) e (Some (k, t))
  | hold_release e k t :
      released e = Some (k, t) ->
      hold_step (Some (k, t)) e None
  | hold_other e :
      is_variable_length_call e = false ->
      touched e = None ->
      released e = None ->
      hold_step None e None.

Fixpoint handover (h : holding) (tr : trace) (h' : holding) : Prop :=
  match tr with
  | [] => h = h'
  | e :: tr' => exists h1, hold_step h e h1 /\ handover h1 tr' h'
  end.

(** The presupposition of the ownership rule: a variable-length call
    that answers 0 has stored its triple. *)
Definition stores_on_success (e : event) : Prop :=
  match e with
  | Ev_get_pdos _ _ _ _ _ _ _ _ r stored => r = 0 -> stored <> None
  | Ev_get_alternate_modes _ _ _ r stored => r = 0 -> stored <> None
  | _ => True
  end.

(** The same with a pointer that is not [NULL]. *)
Definition stores_array_on_success (e : event) : Prop :=
  match e with
  | Ev_get_pdos _ _ _ _ _ _ _ _ r stored =>
      r = 0 -> exists t, stored = Some t /\ t_ptr t <> NULL
  | Ev_get_alternate_modes _ _ _ r stored =>
      r = 0 -> exists t, stored = Some t /\ t_ptr t <> NULL
  | _ => True
  end.

(** Answers that let the run return: every call that answers 0 has
    stored its outputs, a PDO array is not [NULL], and the length of an
    alternate-mode array is one the [unsigned int] counter of its print
    loop reaches within the budget. *)
Definition usable (fuel : nat) (e : event) : Prop :=
  match e with
  | Ev_new _ _ stored => stored <> None
  | Ev_get_capabilities _ r stored => r = 0 -> stored <> None
  | Ev_get_pdos _ _ _ _ _ _ _ _ r stored =>
      r = 0 -> exists t, stored = Some t /\ t_ptr t <> NULL
  | Ev_get_alternate_modes _ _ _ r stored =>
      r = 0 -> exists t, stored = Some t /\ t_len t <= UINT_MAX
                         /\ t_len t <= Z.of_nat fuel
  | _ => True
  end.

(** The run goes on: nothing is held. *)
Definition keeps (tr : trace) : Prop :=
  Forall stores_on_success tr -> handover None tr None.

(** The run stops: at most the last array is still held, and none when
    the run returns; an [assert] fails and a run fails to return only
    after an answer that is not usable. *)
Definition ends (fuel : nat) (o : outcome) (tr : trace) : Prop :=
  (Forall stores_on_success tr ->
   exists h, handover None tr h /\ (exit_status o <> None -> h = None))
  /\ (Forall stores_array_on_success tr -> o <> AssertFailed)
  /\ (Forall (usable fuel) tr -> exit_status o <> None).

(** An element of the array [t] of kind [k] is read, inside its bounds. *)
Definition reads_within (k : array_kind) (t : triple) (e : event) : Prop :=
  exists i, touched e = Some (k, t_ptr t, i) /\ 0 <= i < t_len t.

(* ------------------------------------------------------------------ *)
(** ** Answers of the library *)


(** What the claims about runs without a fatal answer suppose of the
    result codes: 0 from [libtypec_rs_new] and the mandatory queries, 0
    or [-ENOTSUP] from the optional ones. *)
Definition tolerable (e : event) : Prop :=
  match e with
  | Ev_new _ r _ => r = 0
  | Ev_get_capabilities _ r _ => r = 0
  | Ev_get_conn_capabilities _ _ r => r = 0
  | Ev_get_pdos _ _ _ _ _ _ _ _ r _ => r = 0 \/ r = - ENOTSUP
  | Ev_get_cable_properties _ _ r => r = 0 \/ r = - ENOTSUP
  | Ev_get_alternate_modes _ _ _ r _ => r = 0 \/ r = - ENOTSUP
  | Ev_get_pd_message _ _ _ _ r => r = 0 \/ r = - ENOTSUP
  | _ => True
  end.


(** No partner is attached: the partner PDO queries answer [-ENOTSUP]. *)
Definition partner_not_supported (e : event) : Prop :=
  match e with
  | Ev_get_pdos _ _ true _ _ _ _ _ r _ => r = - ENOTSUP
  | _ => True
  end.


(** What the precondition of C8 asks of an answer of
    [libtypec_rs_new]: 0 with a pointer other than [NULL], or a negative
    code with [NULL]. *)
Definition new_contract (ans : Z * option ptr) : Prop :=
  (fst ans = 0 /\ exists p, snd ans = Some p /\ p <> NULL)
  \/ (fst ans < 0 /\ snd ans = Some NULL).

(* ------------------------------------------------------------------ *)
(** ** More to read off a log *)

(** The handle an entry point is called on. *)
Definition handle_of (e : event) : option ptr :=
  match e with
  | Ev_destroy h => Some h
  | Ev_get_capabilities h _ _ => Some h
  | Ev_get_conn_capabilities h _ _ => Some h
  | Ev_get_pdos h _ _ _ _ _ _ _ _ _ => Some h
  | Ev_get_cable_properties h _ _ => Some h
  | Ev_get_alternate_modes h _ _ _ _ => Some h
  | Ev_get_pd_message h _ _ _ _ => Some h
  | _ => None
  end.

Definition is_stderr (e : event) : bool :=
  match e with Ev_stderr _ => true | _ => false end.

(** [l] is an initial part of [total]. *)
Definition initial_part {A} (l total : list A) : Prop :=
  exists rest, total = l ++ rest.

(** The printer call on element [i] of an array of kind [k] at [p]. *)
Definition printer (k : array_kind) (p : ptr) (i : Z) : event :=
  match k with
  | PdoArray => Ev_PdPdo_printf p i
  | AltModeArray => Ev_UcsiAlternateMode_printf p i
  end.

(* ------------------------------------------------------------------ *)
(** ** The messages on stderr *)

(** Lines 75, 97, 215 and 237. *)
Definition pdos_message (partner : bool) (ty : PdoType) : string :=
  match partner, ty with
  | false, PdoType_Source =>
      "Failed to get the Connector Source PDOs %zu\n"%string
  | false, PdoType_Sink =>
      "Failed to get the Connector Sink PDOs %zu\n"%string
  | true, PdoType_Source => "Failed to get Partner Source PDOs"%string
  | true, PdoType_Sink => "Failed to get Partner Sink PDOs"%string
  end.

(** Lines 131, 149 and 180. *)
Definition alternate_modes_message
    (recipient : GetAlternateModesRecipient) : string :=
  match recipient with
  | GetAlternateModesRecipient_Connector =>
      "Failed to get connector alt modes\n"%string
  | GetAlternateModesRecipient_SopPrime =>
      "Failed to get SOP' alt modes\n"%string
  | GetAlternateModesRecipient_Sop =>
      "Failed to get SOP alt modes\n"%string
  end.

(** Lines 163 and 193. *)
Definition pd_message_message (recipient : PdMessageRecipient) : string :=
  match recipient with
  | PdMessageRecipient_SopPrime =>
      "Failed to get the DiscoverIdentity PD message for SOP'\n"%string
  | PdMessageRecipient_Sop =>
      "Failed to get the DiscoverIdentity PD message for SOP\n"%string
  end.

(** The message the client writes when the call of an event fails:
    lines 31, 39, 52 and 110 and the three tables above. *)
Definition message_of (e : event) : option string :=
  match e with
  | Ev_new _ _ _ => Some "Failed to create TypecRs instance\n"%string
  | Ev_get_capabilities _ _ _ =>
      Some "Failed to get capabilities\n"%string
  | Ev_get_conn_capabilities _ _ _ =>
      Some "Failed to get connector %zu\n"%string
  | Ev_get_pdos _ _ partner _ _ ty _ _ _ _ =>
      Some (pdos_message partner ty)
  | Ev_get_cable_properties _ _ _ =>
      Some "Failed to get cable properties\n"%string
  | Ev_get_alternate_modes _ recipient _ _ _ =>
      Some (alternate_modes_message recipient)
  | Ev_get_pd_message _ _ recipient _ _ =>
      Some (pd_message_message recipient)
  | _ => None
  end.

(* ------------------------------------------------------------------ *)
(** ** How a run goes on and how it stops *)

(** What is known of an event after which the run went on.  The
    variables of a partner PDO query are reset before the call (lines
    199-201 and 220-222), so going on after an answer of 0 means the
    query itself stored an array.  A PDO array is printed and destroyed
    after the [assert] of lines 66, 87, 207 and 228 only. *)
Definition passed (e : event) : Prop :=
  match e with
  | Ev_new _ _ stored => exists p, stored = Some p /\ p <> NULL
  | Ev_get_capabilities _ r stored => r = 0 /\ stored <> None
  | Ev_get_conn_capabilities _ _ r => r = 0
  | Ev_get_pdos _ _ partner _ _ _ _ _ r stored =>
      r = - ENOTSUP
      \/ (r = 0 /\ (partner = true ->
                    exists t, stored = Some t /\ t_ptr t <> NULL))
  | Ev_get_cable_properties _ _ r => r = 0 \/ r = - ENOTSUP
  | Ev_get_alternate_modes _ _ _ r _ => r = 0 \/ r = - ENOTSUP
  | Ev_get_pd_message _ _ _ _ r => r = 0 \/ r = - ENOTSUP
  | Ev_destroy_pdos t => t_ptr t <> NULL
  | Ev_PdPdo_printf p _ => p <> NULL
  | Ev_stderr _ => False
  | _ => True
  end.

(** An answer on which the client returns: a fatal one, or a [NULL]
    handle from [libtypec_rs_new]. *)
Definition gives_up (e : event) : Prop :=
  fatal e \/ exists b r, e = Ev_new b r (Some NULL).

(** A PDO query that answers 0 and stores no array other than [NULL]. *)
Definition leaves_null (e : event) : Prop :=
  match e with
  | Ev_get_pdos _ _ _ _ _ _ _ _ r stored =>
      r = 0 /\ forall t, stored = Some t -> t_ptr t = NULL
  | _ => False
  end.

(** A call whose output is read though the call stored nothing:
    [libtypec_rs_new] with any result, [libtypec_rs_get_capabilities]
    and [libtypec_rs_get_alternate_modes] with result 0. *)
Definition leaves_unset (e : event) : Prop :=
  match e with
  | Ev_new _ _ None => True
  | Ev_get_capabilities _ r None => r = 0
  | Ev_get_alternate_modes _ _ _ r None => r = 0
  | _ => False
  end.

(** An alternate-mode query that answers 0 and leaves in the variables
    the triple [m], whose length the print loop does not reach: it is
    more than [UINT_MAX] or more than the budget. *)
Definition outruns (fuel : nat) (e : event) (m : triple) : Prop :=
  match e with
  | Ev_get_alternate_modes _ _ _ r stored =>
      r = 0 /\ (forall t, stored = Some t -> t = m)
      /\ (UINT_MAX < t_len m \/ Z.of_nat fuel < t_len m)
  | _ => False
  end.

(** The last events of a run that does not complete, by outcome. *)
Definition last_events (fuel : nat) (o : outcome) (tail : trace) : Prop :=
  match o with
  | Completed => False
  | EarlyReturn r =>
      exists e msg,
        tail = [e; Ev_stderr msg] /\ message_of e = Some msg
        /\ ret_of e = Some r /\ gives_up e
  | AssertFailed => exists e, tail = [e] /\ leaves_null e
  | Undefined => exists e, tail = [e] /\ leaves_unset e
  | OutOfFuel =>
      exists e m l,
        tail = e :: map (Ev_UcsiAlternateMode_printf (t_ptr m)) l
        /\ outruns fuel e m
  end.

(** The run goes on: every event so far is passed, and the queries so
    far are [X]. *)
Definition told (X : list (query * Z)) (tr : trace) : Prop :=
  Forall passed tr /\ queries tr = X.

(** The run stops: passed events, then the last events of the outcome;
    the queries made are an initial part of [total]. *)
Definition cut (fuel : nat) (total : list (query * Z)) (o : outcome)
    (tr : trace) : Prop :=
  (exists pre tail,
     tr = pre ++ tail /\ Forall passed pre /\ last_events fuel o tail)
  /\ initial_part (queries tr) total.

(* ------------------------------------------------------------------ *)
(** ** Reading an array in order *)

(** What the client is reading between two events: nothing, or the
    array of a triple with the index of its next element. *)
Definition reading := option (array_kind * triple * Z).

Definition start_reading (g : option (array_kind * triple)) : reading :=
  match g with
  | Some (k, t) => Some (k, t, 0)
  | None => None
  end.

(** One event of a client that reads in order: the element read is the
    next one, and the destroyer comes when every element has been
    read. *)
Inductive read_step : reading -> event -> reading -> Prop :=
  | read_call e :
      is_variable_length_call e = true ->
      read_step None e (start_reading (granted e))
  | read_next k t i :
      0 <= i < t_len t ->
      read_step (Some (k, t, i)) (printer k (t_ptr t) i)
                (Some (k, t, i + 1))
  | read_release e k t i :
      released e = Some (k, t) ->
      i = Z.max 0 (t_len t) ->
      read_step (Some (k, t, i)) e None
  | read_other e :
      is_variable_length_call e = false ->
      touched e = None ->
      released e = None ->
      read_step None e None.

Fixpoint reads (h : reading) (tr : trace) (h' : reading) : Prop :=
  match tr with
  | [] => h = h'
  | e :: tr' => exists h1, read_step h e h1 /\ reads h1 tr' h'
  end.

(** The run goes on: every array so far was read in order and
    released. *)
Definition in_order (tr : trace) : Prop :=
  Forall stores_on_success tr -> reads None tr None.

(** The run stops: the same up to some point, and no destroyer call
    after it. *)
Definition in_order_so_far (o : outcome) (tr : trace) : Prop :=
  Forall stores_on_success tr ->
  exists pre tail,
    tr = pre ++ tail /\ reads None pre None
    /\ Forall (fun e => released e = None) tail.

(* ------------------------------------------------------------------ *)
(** ** The budget of the print loops *)


(* ------------------------------------------------------------------ *)
(** ** More concrete libraries *)

(** [libtypec_rs_new] answers 0 and stores [NULL]. *)
Definition null_handle_lib : LibTypec unit :=
  stateless_lib
    (0, Some NULL)
    (0, Some (mkCapability 1 768))
    (fun _ => 0)
    (fun _ _ _ => (- ENOTSUP, None))
    (fun _ => - ENOTSUP)
    (fun _ _ => (- ENOTSUP, None))
    (fun _ _ => - ENOTSUP).

(** [libtypec_rs_new] answers [-EIO] and stores a handle all the same. *)
Definition odd_new_lib : LibTypec unit :=
  stateless_lib
    (-5, Some 4096)
    (0, Some (mkCapability 1 768))
    (fun _ => 0)
    (fun _ _ _ => (- ENOTSUP, None))
    (fun _ => - ENOTSUP)
    (fun _ _ => (- ENOTSUP, None))
    (fun _ _ => - ENOTSUP).


(** A host without connectors. *)
Definition no_connector_lib : LibTypec unit :=
  stateless_lib
    (0, Some 4096)
    (0, Some (mkCapability 0 768))
    (fun _ => 0)
    (fun _ _ _ => (- ENOTSUP, None))
    (fun _ => - ENOTSUP)
    (fun _ _ => (- ENOTSUP, None))
    (fun _ _ => - ENOTSUP).

(** The partner sink PDO query answers 0 and stores nothing; the
    connector's own PDO queries store arrays. *)
Definition silent_partner_lib : LibTypec unit :=
  stateless_lib
    (0, Some 4096)
    (0, Some (mkCapability 1 768))
    (fun _ => 0)
    (fun conn partner ty =>
       if partner then
         match ty with
         | PdoType_Source => (- ENOTSUP, None)
         | PdoType_Sink => (0, None)
         end
       else (0, Some (Triple 8192 2 64)))
    (fun _ => - ENOTSUP)
    (fun _ _ => (- ENOTSUP, None))
    (fun _ _ => - ENOTSUP).

(** The cable's alternate modes cannot be read: [-EIO]. *)
Definition cable_error_lib : LibTypec unit :=
  stateless_lib
    (0, Some 4096)
    (0, Some (mkCapability 2 768))
    (fun _ => 0)
    (fun conn partner ty =>
       if partner then (- ENOTSUP, None)
       else (0, Some (Triple 8192 2 64)))
    (fun _ => 0)
    (fun recipient conn =>
       match recipient with
       | GetAlternateModesRecipient_Connector =>
           (0, Some (Triple 16384 3 48))
       | GetAlternateModesRecipient_SopPrime => (-5, None)
       | GetAlternateModesRecipient_Sop => (- ENOTSUP, None)
       end)
    (fun _ _ => - ENOTSUP).

(* ================================================================== *)
(** * Lemmas and theorems *)

(* ------------------------------------------------------------------ *)
(** ** Logs and loops *)

Lemma queries_app (t1 t2 : trace) :
  queries (t1 ++ t2) = queries t1 ++ queries t2.
Proof.
  induction t1 as [|e t1 IH]; simpl; [reflexivity|].
  destruct (query_of e); simpl; now rewrite IH.
Qed.

Lemma destroyed_app (t1 t2 : trace) :
  destroyed (t1 ++ t2) = destroyed t1 ++ destroyed t2.
Proof.
  induction t1 as [|e t1 IH]; simpl; [reflexivity|].
  destruct e; simpl; now rewrite IH.
Qed.

Lemma created_app (t1 t2 : trace) :
  created (t1 ++ t2) = created t1 ++ created t2.
Proof.
  induction t1 as [|e t1 IH]; simpl; [reflexivity|].
  destruct e; simpl; now rewrite IH.
Qed.

Lemma indices_bounds (count : nat) (first i : Z) :
  In i (indices count first) -> first <= i < first + Z.of_nat count.
Proof.
  revert first; induction count as [|n IH]; simpl; intros first H.
  - contradiction.
  - destruct H as [<- | H]; [lia|]. apply IH in H. lia.
Qed.

Section Loops.

Context {L : Type} (lib : LibTypec L).

Lemma print_pdos_log (n : nat) (i : Z) (p : ptr) (c : config L) :
  print_pdos n i p c =
  Go tt (mkConfig (lib_state c)
                  (log c ++ map (Ev_PdPdo_printf p) (indices n i))).
Proof.
  revert i c; induction n as [|n IH]; intros i c; simpl.
  - unfold ret. rewrite app_nil_r. now destruct c.
  - unfold bind, emit. rewrite IH. simpl. now rewrite <- app_assoc.
Qed.

Lemma print_alt_modes_log (fuel : nat) (i : Z) (p : ptr) (n : Z)
    (c : config L) :
  print_alt_modes fuel i p n c =
  let '(l, done) := alt_mode_visits fuel i n in
  let c' := mkConfig (lib_state c)
                     (log c ++ map (Ev_UcsiAlternateMode_printf p) l) in
  if done then Go tt c' else Halt OutOfFuel c'.
Proof.
  revert i c; induction fuel as [|f IH]; intros i c;
    cbn [print_alt_modes alt_mode_visits].
  - destruct (i <? n); cbn [map]; unfold ret, halt;
      rewrite app_nil_r; now destruct c.
  - destruct (i <? n).
    + unfold bind, emit. rewrite IH. cbn [lib_state log].
      destruct (alt_mode_visits f ((i + 1) mod (UINT_MAX + 1)) n)
        as [l done].
      cbn [map]. rewrite <- app_assoc. reflexivity.
    + unfold ret. cbn [map]. rewrite app_nil_r. now destruct c.
Qed.

End Loops.

(** Every index visited is below the bound, whatever the budget. *)
Lemma alt_mode_visits_bounds (fuel : nat) (i n j : Z) :
  0 <= i ->
  In j (fst (alt_mode_visits fuel i n)) -> 0 <= j < n.
Proof.
  revert i; induction fuel as [|f IH]; intros i Hi;
    cbn [alt_mode_visits].
  - destruct (i <? n); simpl; contradiction.
  - destruct (i <? n) eqn:E; [|simpl; contradiction].
    destruct (alt_mode_visits f ((i + 1) mod (UINT_MAX + 1)) n)
      as [l done] eqn:V.
    simpl. intros [<- | H].
    + apply Z.ltb_lt in E. lia.
    + apply (IH ((i + 1) mod (UINT_MAX + 1))).
      * apply Z.mod_pos_bound. reflexivity.
      * now rewrite V.
Qed.

(** With a bound that an [unsigned int] can hold and a budget that
    covers it, the loop visits each index once and leaves. *)
Lemma alt_mode_visits_done (fuel : nat) (i n : Z) :
  0 <= i ->
  n <= UINT_MAX ->
  n - i <= Z.of_nat fuel ->
  alt_mode_visits fuel i n = (indices (Z.to_nat (n - i)) i, true).
Proof.
  revert i; induction fuel as [|f IH]; intros i Hi Hn Hf;
    cbn [alt_mode_visits].
  - destruct (i <? n) eqn:E.
    + apply Z.ltb_lt in E. lia.
    + apply Z.ltb_ge in E.
      replace (Z.to_nat (n - i)) with O by lia. reflexivity.
  - destruct (i <? n) eqn:E.
    + apply Z.ltb_lt in E.
      assert (Hw : (i + 1) mod (UINT_MAX + 1) = i + 1).
      { apply Z.mod_small. unfold UINT_MAX in *. lia. }
      rewrite Hw, IH by lia.
      replace (Z.to_nat (n - i)) with (S (Z.to_nat (n - (i + 1)))) by lia.
      reflexivity.
    + apply Z.ltb_ge in E.
      replace (Z.to_nat (n - i)) with O by lia. reflexivity.
Qed.

(** With a bound no [unsigned int] reaches, the loop never leaves. *)
Lemma alt_mode_visits_spin (fuel : nat) (i n : Z) :
  0 <= i <= UINT_MAX ->
  UINT_MAX < n ->
  snd (alt_mode_visits fuel i n) = false.
Proof.
  revert i; induction fuel as [|f IH]; intros i Hi Hn;
    cbn [alt_mode_visits].
  - destruct (i <? n) eqn:E; [reflexivity|].
    apply Z.ltb_ge in E. lia.
  - destruct (i <? n) eqn:E.
    + specialize (IH ((i + 1) mod (UINT_MAX + 1))).
      destruct (alt_mode_visits f ((i + 1) mod (UINT_MAX + 1)) n)
        as [l done].
      cbn [snd] in *. apply IH; [|assumption].
      pose proof (Z.mod_pos_bound (i + 1) (UINT_MAX + 1) eq_refl).
      unfold UINT_MAX in *. lia.
    + apply Z.ltb_ge in E. lia.
Qed.

Lemma queries_PdPdo_printf (p : ptr) (l : list Z) :
  queries (map (Ev_PdPdo_printf p) l) = [].
Proof. induction l; simpl; auto. Qed.

Lemma queries_UcsiAlternateMode_printf (p : ptr) (l : list Z) :
  queries (map (Ev_UcsiAlternateMode_printf p) l) = [].
Proof. induction l; simpl; auto. Qed.

(* ------------------------------------------------------------------ *)
(** ** Rules of the program logic *)

Section Logic.

Context {L : Type} (lib : LibTypec L).

Lemma hoare_bind {A B} (P : trace -> Prop) (m : M L A) (k : A -> M L B)
    (R : A -> trace -> Prop) (Q : B -> trace -> Prop)
    (E : outcome -> trace -> Prop) :
  hoare P m R E ->
  (forall a, hoare (R a) (k a) Q E) ->
  hoare P (bind m k) Q E.
Proof.
  intros Hm Hk c HP. unfold bind. specialize (Hm c HP).
  destruct (m c) as [a c'|o c']; [apply Hk|]; assumption.
Qed.

Lemma hoare_ret {A} (P : trace -> Prop) (a : A)
    (Q : A -> trace -> Prop) (E : outcome -> trace -> Prop) :
  (forall tr, P tr -> Q a tr) ->
  hoare P (ret a : M L A) Q E.
Proof. intros H c HP. now apply H. Qed.

End Logic.

(* ------------------------------------------------------------------ *)
(** ** The form of a run *)

(** Unfolds a block down to the library's answer. *)
Ltac open_block :=
  unfold conn_capabilities_block, pdos_block, cable_properties_block,
    alternate_modes_block, pd_message_block;
  unfold assert, read, fprintf_stderr, return_;
  unfold bind, call_new,
    call_get_capabilities, call_get_conn_capabilities, call_get_pdos,
    call_get_cable_properties, call_get_alternate_modes,
    call_get_pd_message, call_destroy_pdos, call_destroy_alternate_modes,
    call_destroy, emit, halt, ret.

Lemma Forall_inner_PdPdo_printf typec caps p l :
  Forall (inner typec caps) (map (Ev_PdPdo_printf p) l).
Proof. apply Forall_forall. intros e H. apply in_map_iff in H.
  destruct H as (j & <- & _). exact I. Qed.

Lemma Forall_inner_UcsiAlternateMode_printf typec caps p l :
  Forall (inner typec caps) (map (Ev_UcsiAlternateMode_printf p) l).
Proof. apply Forall_forall. intros e H. apply in_map_iff in H.
  destruct H as (j & <- & _). exact I. Qed.

Lemma Forall_survivable_PdPdo_printf p l :
  Forall survivable (map (Ev_PdPdo_printf p) l).
Proof. apply Forall_forall. intros e H. apply in_map_iff in H.
  destruct H as (j & <- & _). exact I. Qed.

Lemma Forall_survivable_UcsiAlternateMode_printf p l :
  Forall survivable (map (Ev_UcsiAlternateMode_printf p) l).
Proof. apply Forall_forall. intros e H. apply in_map_iff in H.
  destruct H as (j & <- & _). exact I. Qed.

Lemma fatal_not_survivable (e : event) : fatal e -> ~ survivable e.
Proof.
  destruct e; unfold ENOTSUP; simpl; intros H H'; try contradiction; lia.
Qed.

(** Closes the side conditions of the form lemmas. *)
Ltac form_side :=
  repeat match goal with
  | |- _ /\ _ => split
  | |- Forall _ (_ ++ _) => apply Forall_app
  | |- Forall _ (_ :: _) => constructor
  | |- Forall _ [] => constructor
  | |- Forall (inner _ _) (map (Ev_PdPdo_printf _) _) =>
      apply Forall_inner_PdPdo_printf
  | |- Forall (inner _ _) (map (Ev_UcsiAlternateMode_printf _) _) =>
      apply Forall_inner_UcsiAlternateMode_printf
  | |- Forall survivable (map (Ev_PdPdo_printf _) _) =>
      apply Forall_survivable_PdPdo_printf
  | |- Forall survivable (map (Ev_UcsiAlternateMode_printf _) _) =>
      apply Forall_survivable_UcsiAlternateMode_printf
  | |- inner _ _ _ => simpl; auto
  | |- survivable _ => unfold ENOTSUP in *; simpl; lia
  | |- fatal _ => unfold ENOTSUP in *; simpl; lia
  | |- _ <> Completed => discriminate
  | _ => assumption
  end.

Ltac extend_post Hlog :=
  cbn [log]; rewrite Hlog, <- ?app_assoc;
  eexists; split; [ reflexivity | ].

Ltac queries_side HQ :=
  rewrite ?queries_app, ?HQ; cbn [queries query_of];
  rewrite ?queries_PdPdo_printf, ?queries_UcsiAlternateMode_printf,
    ?queries_app;
  cbn [queries query_of app]; rewrite ?app_nil_r; reflexivity.

(** The loop goes on: the events added are inner and survivable and hold
    the expected query. *)
Ltac goes_on Hlog HQ :=
  extend_post Hlog; form_side; queries_side HQ.

(** The loop stops on something other than a [return]. *)
Ltac stops_short Hlog :=
  extend_post Hlog; form_side; cbn [halted_on]; form_side.

(** The loop stops on [return ret]. *)
Ltac returns_early Hlog post :=
  extend_post Hlog; form_side; cbn [halted_on];
  exists post; eexists _, _; cbn [app];
  split; [reflexivity | split; [reflexivity | split;
    [unfold ENOTSUP in *; simpl; lia | assumption]]].

Section Form.

Context {L : Type} (lib : LibTypec L).

Variables (hd : trace) (typec : ptr) (caps : UcsiCapability).

Lemma conn_capabilities_block_form X i :
  hoare (shape hd typec caps X)
        (conn_capabilities_block lib typec i)
        (fun _ => shape hd typec caps (X ++ [(Q_conn_capabilities, i)]))
        (stopped hd typec caps).
Proof.
  intros c (post & Hlog & HF & HS & HQ). open_block.
  destruct (libtypec_rs_get_conn_capabilities lib (lib_state c) typec i)
    as [s r].
  destruct (r =? 0) eqn:Hr; cbn [negb];
    [apply Z.eqb_eq in Hr | apply Z.eqb_neq in Hr].
  - goes_on Hlog HQ.
  - returns_early Hlog post.
Qed.

Lemma pdos_block_form X i partner ty msg out :
  hoare (shape hd typec caps X)
        (pdos_block lib typec i partner ty (pd_version caps) msg out)
        (fun _ => shape hd typec caps (X ++ [(Q_pdos partner ty, i)]))
        (stopped hd typec caps).
Proof.
  intros c (post & Hlog & HF & HS & HQ). open_block.
  destruct (libtypec_rs_get_pdos lib (lib_state c) typec i partner 0 0 ty
              PdoSourceCapabilitiesType_CurrentSupportedSourceCapabilities
              (pd_version caps)) as [s [r st]].
  destruct (r =? 0) eqn:Hr;
    [apply Z.eqb_eq in Hr | apply Z.eqb_neq in Hr].
  - destruct (negb (t_ptr _ =? NULL)); cbv beta iota.
    + rewrite print_pdos_log. cbv beta iota. goes_on Hlog HQ.
    + stops_short Hlog.
  - destruct (r =? - ENOTSUP) eqn:Hn; cbn [negb];
      [apply Z.eqb_eq in Hn | apply Z.eqb_neq in Hn].
    + goes_on Hlog HQ.
    + returns_early Hlog post.
Qed.

Lemma cable_properties_block_form X i :
  hoare (shape hd typec caps X)
        (cable_properties_block lib typec i)
        (fun _ => shape hd typec caps (X ++ [(Q_cable_properties, i)]))
        (stopped hd typec caps).
Proof.
  intros c (post & Hlog & HF & HS & HQ). open_block.
  destruct (libtypec_rs_get_cable_properties lib (lib_state c) typec i)
    as [s r].
  destruct (r =? 0) eqn:Hr;
    [apply Z.eqb_eq in Hr | apply Z.eqb_neq in Hr].
  - goes_on Hlog HQ.
  - destruct (r =? - ENOTSUP) eqn:Hn; cbn [negb];
      [apply Z.eqb_eq in Hn | apply Z.eqb_neq in Hn].
    + goes_on Hlog HQ.
    + returns_early Hlog post.
Qed.

Lemma alternate_modes_block_form X fuel recipient i msg modes :
  hoare (shape hd typec caps X)
        (alternate_modes_block lib fuel typec recipient i msg modes)
        (fun _ => shape hd typec caps
                    (X ++ [(Q_alternate_modes recipient, i)]))
        (stopped hd typec caps).
Proof.
  intros c (post & Hlog & HF & HS & HQ). open_block.
  destruct (libtypec_rs_get_alternate_modes lib (lib_state c) typec
              recipient i) as [s [r st]].
  destruct (r =? 0) eqn:Hr;
    [apply Z.eqb_eq in Hr | apply Z.eqb_neq in Hr].
  - destruct (after_call st modes) as [m|]; cbv beta iota.
    + rewrite print_alt_modes_log. cbn [lib_state log].
      destruct (alt_mode_visits fuel 0 (t_len m)) as [l [|]];
        cbv beta iota.
      * goes_on Hlog HQ.
      * stops_short Hlog.
    + stops_short Hlog.
  - destruct (r =? - ENOTSUP) eqn:Hn; cbn [negb];
      [apply Z.eqb_eq in Hn | apply Z.eqb_neq in Hn].
    + goes_on Hlog HQ.
    + returns_early Hlog post.
Qed.

Lemma pd_message_block_form X i recipient msg :
  hoare (shape hd typec caps X)
        (pd_message_block lib typec i recipient msg)
        (fun _ => shape hd typec caps
                    (X ++ [(Q_pd_message recipient, i)]))
        (stopped hd typec caps).
Proof.
  intros c (post & Hlog & HF & HS & HQ). open_block.
  destruct (libtypec_rs_get_pd_message lib (lib_state c) typec i recipient
              PdMessageResponseType_DiscoverIdentity) as [s r].
  destruct (r =? 0) eqn:Hr;
    [apply Z.eqb_eq in Hr | apply Z.eqb_neq in Hr].
  - goes_on Hlog HQ.
  - destruct (r =? - ENOTSUP) eqn:Hn; cbn [negb];
      [apply Z.eqb_eq in Hn | apply Z.eqb_neq in Hn].
    + goes_on Hlog HQ.
    + returns_early Hlog post.
Qed.

Lemma connector_body_form X fuel i out :
  hoare (shape hd typec caps X)
        (connector_body lib fuel typec caps i out)
        (fun _ => shape hd typec caps
                    (X ++ map (fun q => (q, i)) per_connector))
        (stopped hd typec caps).
Proof.
  unfold connector_body.
  eapply hoare_bind; [apply conn_capabilities_block_form | intros ?].
  eapply hoare_bind; [apply pdos_block_form | intros out1].
  eapply hoare_bind; [apply pdos_block_form | intros out2].
  eapply hoare_bind; [apply cable_properties_block_form | intros ?].
  eapply hoare_bind; [apply alternate_modes_block_form | intros m1].
  eapply hoare_bind; [apply alternate_modes_block_form | intros m2].
  eapply hoare_bind; [apply pd_message_block_form | intros ?].
  eapply hoare_bind; [apply alternate_modes_block_form | intros m3].
  eapply hoare_bind; [apply pd_message_block_form | intros ?].
  eapply hoare_bind; [apply pdos_block_form | intros out3].
  eapply hoare_bind; [apply pdos_block_form | intros out4].
  apply hoare_ret. intros tr H.
  rewrite <- !app_assoc in H. exact H.
Qed.

Lemma connector_loop_form fuel n :
  forall X i out,
  hoare (shape hd typec caps X)
        (connector_loop lib fuel typec caps n i out)
        (fun _ => shape hd typec caps (X ++ all_queries n i))
        (stopped hd typec caps).
Proof.
  induction n as [|n IH]; intros X i out; cbn [connector_loop all_queries].
  - apply hoare_ret. intros tr H. now rewrite app_nil_r.
  - eapply hoare_bind; [apply connector_body_form | intros out'].
    intros c Hc. specialize (IH _ (i + 1) out' c Hc).
    destruct (connector_loop lib fuel typec caps n (i + 1) out' c);
      [|exact IH].
    now rewrite <- app_assoc in IH.
Qed.

End Form.

Lemma run_has_form {L : Type} (lib : LibTypec L) (fuel : nat)
    (backend : Z) (s : L) :
  run_form backend (fst (run lib fuel backend s))
                   (snd (run lib fuel backend s)).
Proof.
  unfold run.
  set (m := c_example_lstypec lib fuel backend (mkConfig s [])).
  assert (H : match m with
              | Go _ c => run_form backend (log c) Completed
              | Halt o c => run_form backend (log c) o
              end); [|destruct m; exact H].
  subst m. unfold c_example_lstypec.
  unfold read, fprintf_stderr, return_.
  unfold bind at 1. unfold call_new. cbn [lib_state log app].
  destruct (libtypec_rs_new lib s (backend_type backend))
    as [s1 [r0 [typec|]]]; [|apply form_no_handle].
  unfold bind at 1. unfold ret at 1.
  destruct (typec =? NULL) eqn:Hh.
  { apply Z.eqb_eq in Hh. subst typec. apply form_null_handle. }
  apply Z.eqb_neq in Hh.
  unfold bind at 1. unfold call_get_capabilities. cbn [lib_state log app].
  destruct (libtypec_rs_get_capabilities lib s1 typec) as [s2 [r st]].
  destruct (r =? 0) eqn:Hr; cbn [negb].
  2:{ apply Z.eqb_neq in Hr. now apply form_no_capabilities. }
  apply Z.eqb_eq in Hr. subst r.
  destruct st as [caps|]; [|now apply form_capabilities_unset].
  unfold bind at 1. unfold ret at 1.
  set (hd := [Ev_new (backend_type backend) r0 (Some typec);
              Ev_get_capabilities typec 0 (Some caps)]).
  pose proof (connector_loop_form lib hd typec caps fuel
                (Z.to_nat (num_connectors caps)) [] 0 (Triple NULL 0 0)
                (mkConfig s2 hd)) as H.
  unfold bind at 1.
  destruct (connector_loop lib fuel typec caps
              (Z.to_nat (num_connectors caps)) 0 (Triple NULL 0 0)
              (mkConfig s2 hd)) as [out c'|o c'].
  - unfold bind, call_destroy, ret. cbn [log].
    destruct H as (post & Hlog & HF & HS & HQ).
    { exists []. rewrite app_nil_r. repeat split; constructor. }
    rewrite Hlog, <- app_assoc. now apply form_completed.
  - destruct H as (post & Hlog & HF & Ho & Hret).
    { exists []. rewrite app_nil_r. repeat split; constructor. }
    rewrite Hlog in *. now apply form_stopped.
Qed.

(* ------------------------------------------------------------------ *)
(** ** What the form gives *)

Lemma created_inner typec caps post :
  Forall (inner typec caps) post -> created post = [].
Proof.
  induction 1 as [|e post He _ IH]; [reflexivity|].
  destruct e; simpl in *; auto; contradiction.
Qed.

Lemma destroyed_inner typec caps post :
  Forall (inner typec caps) post -> destroyed post = [].
Proof.
  induction 1 as [|e post He _ IH]; [reflexivity|].
  destruct e; simpl in *; auto; contradiction.
Qed.

Lemma no_capabilities_inner typec caps post :
  Forall (inner typec caps) post ->
  Forall (fun e => is_get_capabilities e = false) post.
Proof.
  apply Forall_impl. intros e He. destruct e; simpl in *; auto;
    contradiction.
Qed.




Lemma created_run {L : Type} (lib : LibTypec L) fuel backend s :
  exists r stored rest,
    fst (run lib fuel backend s)
    = Ev_new (backend_type backend) r stored :: rest
    /\ created rest = [].
Proof.
  destruct (run_has_form lib fuel backend s)
    as [r|r msg|r0 typec r st msg _ _|r0 typec _
        |r0 typec caps post o _ HF _ _|r0 typec caps post _ HF _ _];
    cbn [app]; eexists _, _, _; (split; [reflexivity|]);
    try reflexivity.
  - cbn. eapply created_inner; eassumption.
  - cbn. rewrite created_app. erewrite created_inner by eassumption.
    reflexivity.
Qed.

(** C4. Whatever the backend argument, the run opens with the one call
    to [libtypec_rs_new] it makes, and that call asks for
    [OsBackends_Sysfs] when the argument is 0 and for the argument itself
    otherwise. *)
Theorem backend_zero_selects_sysfs
    {L : Type} (lib : LibTypec L) (fuel : nat) (backend : Z) (s : L) :
  exists r stored rest,
    fst (run lib fuel backend s)
    = Ev_new (if backend =? 0 then OsBackends_Sysfs else backend)
             r stored :: rest
    /\ created rest = [].
Proof. exact (created_run lib fuel backend s). Qed.


(** C6. Every [libtypec_rs_get_pdos] call of a run comes after the one
    call to [libtypec_rs_get_capabilities], which answered 0, and passes
    the [pd_version] field of the capabilities that call stored. *)
Theorem pd_version_is_the_cached_one
    {L : Type} (lib : LibTypec L) (fuel : nat) (backend : Z) (s : L)
    (e : event) (v : Z) :
  In e (fst (run lib fuel backend s)) ->
  pd_version_arg e = Some v ->
  exists b r0 typec caps rest,
    fst (run lib fuel backend s)
    = Ev_new b r0 (Some typec)
      :: Ev_get_capabilities typec 0 (Some caps) :: rest
    /\ In e rest
    /\ Forall (fun e' => is_get_capabilities e' = false) rest
    /\ v = pd_version caps.
Proof.
  intros Hin Hv.
  assert (Hpost : forall typec caps post,
             Forall (inner typec caps) post -> In e post ->
             v = pd_version caps).
  { intros typec caps post HF Hi.
    rewrite Forall_forall in HF. specialize (HF e Hi).
    destruct e; try discriminate. cbn in Hv, HF.
    injection Hv as <-. tauto. }
  destruct (run_has_form lib fuel backend s)
    as [r|r msg|r0 typec r st msg _ _|r0 typec _
        |r0 typec caps post o _ HF _ _|r0 typec caps post _ HF _ _];
    cbn [app] in *.
  - destruct Hin as [<-|[]]. discriminate.
  - destruct Hin as [<-|[<-|[]]]; discriminate.
  - destruct Hin as [<-|[<-|[<-|[]]]]; discriminate.
  - destruct Hin as [<-|[<-|[]]]; discriminate.
  - destruct Hin as [<-|[<-|Hin]]; try discriminate.
    exists (backend_type backend), r0, typec, caps, post.
    split; [reflexivity|]. split; [assumption|].
    split; [eapply no_capabilities_inner; eassumption|].
    eapply Hpost; eassumption.
  - destruct Hin as [<-|[<-|Hin]]; try discriminate.
    exists (backend_type backend), r0, typec, caps,
      (post ++ [Ev_destroy typec]).
    split; [reflexivity|]. split; [assumption|].
    split.
    + apply Forall_app. split.
      * eapply no_capabilities_inner; eassumption.
      * repeat constructor.
    + apply in_app_iff in Hin. destruct Hin as [Hin|[<-|[]]].
      * eapply Hpost; eassumption.
      * discriminate.
Qed.

(** C7, as the code has it. The value a run returns is 0 when the run
    completes; otherwise it is the result of the library call that
    failed, which is the last call of the run and is followed by the
    message about it. That result is nonzero, except when
    [libtypec_rs_new] answered 0 and stored [NULL]. *)
Theorem exit_status_is_the_failed_call_result
    {L : Type} (lib : LibTypec L) (fuel : nat) (backend : Z) (s : L)
    (z : Z) :
  exit_status (snd (run lib fuel backend s)) = Some z ->
  (snd (run lib fuel backend s) = Completed /\ z = 0) \/
  (exists pre e msg,
     fst (run lib fuel backend s) = pre ++ [e; Ev_stderr msg]
     /\ ret_of e = Some z
     /\ (z <> 0 \/ exists b, e = Ev_new b 0 (Some NULL))).
Proof.
  intros Hz.
  destruct (run_has_form lib fuel backend s)
    as [r|r msg|r0 typec r st msg _ Hr|r0 typec _
        |r0 typec caps post o _ HF Hne Hh|r0 typec caps post _ HF _ _];
    cbn [exit_status] in Hz; try discriminate.
  - injection Hz as <-. right.
    exists [], (Ev_new (backend_type backend) r (Some NULL)), msg.
    split; [reflexivity|]. split; [reflexivity|].
    destruct (Z.eq_dec r 0) as [->|]; [right; eauto | left; assumption].
  - injection Hz as <-. right.
    exists [Ev_new (backend_type backend) r0 (Some typec)],
      (Ev_get_capabilities typec r st), msg.
    split; [reflexivity|]. split; [reflexivity|]. now left.
  - destruct o; cbn [exit_status] in Hz; try discriminate;
      [congruence|].
    injection Hz as <-. right.
    destruct Hh as (post' & e & msg & -> & Hret & Hfatal & _).
    exists ([Ev_new (backend_type backend) r0 (Some typec);
             Ev_get_capabilities typec 0 (Some caps)] ++ post'), e, msg.
    split; [now rewrite <- app_assoc|]. split; [assumption|].
    left. destruct e; cbn in Hret, Hfatal; try contradiction;
      injection Hret as <-; tauto.
  - injection Hz as <-. now left.
Qed.

(** C9. A run that completes ends with the one call to
    [libtypec_rs_destroy] it makes, on the handle [libtypec_rs_new]
    stored; a run that ends any other way makes no such call. A fatal
    answer (nonzero from [libtypec_rs_get_capabilities] or
    [libtypec_rs_get_conn_capabilities], other than 0 and [-ENOTSUP] from
    the other queries) makes the run return that answer's result without
    the call. *)
Theorem instance_destroyed_only_on_completion
    {L : Type} (lib : LibTypec L) (fuel : nat) (backend : Z) (s : L) :
  match snd (run lib fuel backend s) with
  | Completed =>
      exists b r0 typec rest,
        fst (run lib fuel backend s)
        = Ev_new b r0 (Some typec) :: rest ++ [Ev_destroy typec]
        /\ destroyed rest = []
  | _ => destroyed (fst (run lib fuel backend s)) = []
  end
  /\ forall e, In e (fst (run lib fuel backend s)) -> fatal e ->
       exists r, ret_of e = Some r
                 /\ snd (run lib fuel backend s) = EarlyReturn r
                 /\ destroyed (fst (run lib fuel backend s)) = [].
Proof.
  destruct (run_has_form lib fuel backend s)
    as [r|r msg|r0 typec r st msg _ Hr|r0 typec _
        |r0 typec caps post o _ HF Hne Hh|r0 typec caps post _ HF HS _].
  - split; [reflexivity|]. intros e [<-|[]] [].
  - split; [reflexivity|]. intros e [<-|[<-|[]]] [].
  - split; [reflexivity|]. intros e [<-|[<-|[<-|[]]]] Hf;
      try contradiction.
    exists r. repeat split.
  - split; [reflexivity|]. intros e [<-|[<-|[]]] Hf;
      cbn in Hf; try contradiction; try congruence.
  - assert (Hd : destroyed
                   ([Ev_new (backend_type backend) r0 (Some typec);
                     Ev_get_capabilities typec 0 (Some caps)] ++ post)
                 = []).
    { cbn. eapply destroyed_inner; eassumption. }
    split; [destruct o; try exact Hd; congruence|].
    intros e Hin Hf. cbn [app] in Hin.
    destruct Hin as [<-|[<-|Hin]]; cbn in Hf; try contradiction;
      try congruence.
    destruct o as [|code| | |]; cbn [halted_on] in Hh;
      try (rewrite Forall_forall in Hh;
           now destruct (fatal_not_survivable e Hf (Hh e Hin))).
    destruct Hh as (post' & e' & msg & -> & Hret & _ & HS).
    apply in_app_iff in Hin. destruct Hin as [Hin|[<-|[<-|[]]]].
    + rewrite Forall_forall in HS.
      now destruct (fatal_not_survivable e Hf (HS e Hin)).
    + exists code. repeat split; assumption.
    + contradiction.
  - split.
    + exists (backend_type backend), r0, typec,
        (Ev_get_capabilities typec 0 (Some caps) :: post).
      split; [reflexivity|]. cbn. eapply destroyed_inner; eassumption.
    + intros e Hin Hf. cbn [app] in Hin.
      destruct Hin as [<-|[<-|Hin]]; cbn in Hf; try contradiction;
        try congruence.
      apply in_app_iff in Hin. destruct Hin as [Hin|[<-|[]]];
        [|contradiction].
      rewrite Forall_forall in HS.
      now destruct (fatal_not_survivable e Hf (HS e Hin)).
Qed.

(* ------------------------------------------------------------------ *)
(** ** Ownership of the arrays, block by block *)

Lemma handover_app h1 t1 h2 t2 h3 :
  handover h1 t1 h2 -> handover h2 t2 h3 -> handover h1 (t1 ++ t2) h3.
Proof.
  revert h1; induction t1 as [|e t1 IH]; intros h1; cbn.
  - now intros ->.
  - intros (h & Hs & Ht) H. exists h. split; [assumption|]. now apply IH.
Qed.

Lemma handover_split h1 t1 t2 h3 :
  handover h1 (t1 ++ t2) h3 ->
  exists h2, handover h1 t1 h2 /\ handover h2 t2 h3.
Proof.
  revert h1; induction t1 as [|e t1 IH]; intros h1; cbn.
  - intros H. now exists h1.
  - intros (h & Hs & Ht). destruct (IH _ Ht) as (h2 & H1 & H2).
    exists h2. split; [|assumption]. now exists h.
Qed.

Lemma handover_PdPdo_printf t l :
  (forall j, In j l -> 0 <= j < t_len t) ->
  handover (Some (PdoArray, t))
           (map (Ev_PdPdo_printf (t_ptr t)) l)
           (Some (PdoArray, t)).
Proof.
  induction l as [|j l IH]; intros H; cbn.
  - reflexivity.
  - exists (Some (PdoArray, t)). split.
    + apply hold_touch with (i := j); [reflexivity|]. apply H. now left.
    + apply IH. intros j' Hj'. apply H. now right.
Qed.

Lemma handover_UcsiAlternateMode_printf t l :
  (forall j, In j l -> 0 <= j < t_len t) ->
  handover (Some (AltModeArray, t))
           (map (Ev_UcsiAlternateMode_printf (t_ptr t)) l)
           (Some (AltModeArray, t)).
Proof.
  induction l as [|j l IH]; intros H; cbn.
  - reflexivity.
  - exists (Some (AltModeArray, t)). split.
    + apply hold_touch with (i := j); [reflexivity|]. apply H. now left.
    + apply IH. intros j' Hj'. apply H. now right.
Qed.

Lemma handover_one h e h' : hold_step h e h' -> handover h [e] h'.
Proof. intros H. exists h'. now split. Qed.

Lemma keeps_segment tr seg :
  keeps tr ->
  (Forall stores_on_success seg -> handover None seg None) ->
  keeps (tr ++ seg).
Proof.
  intros Hk Hs HF. apply Forall_app in HF as [HF1 HF2].
  eapply handover_app; [apply Hk, HF1 | apply Hs, HF2].
Qed.

Lemma ends_segment fuel o tr seg :
  keeps tr ->
  (Forall stores_on_success seg ->
   exists h, handover None seg h /\ (exit_status o <> None -> h = None)) ->
  (Forall stores_array_on_success seg -> o <> AssertFailed) ->
  (Forall (usable fuel) seg -> exit_status o <> None) ->
  ends fuel o (tr ++ seg).
Proof.
  intros Hk H1 H2 H3. repeat split.
  - intros HF. apply Forall_app in HF as [HF1 HF2].
    destruct (H1 HF2) as (h & Hh & Hx). exists h. split; [|assumption].
    eapply handover_app; [apply Hk, HF1 | exact Hh].
  - intros HF. apply Forall_app in HF as [_ HF2]. now apply H2.
  - intros HF. apply Forall_app in HF as [_ HF2]. now apply H3.
Qed.

(** A call that is no variable-length call, or its message on stderr:
    made with nothing held. *)
Ltac plain_step :=
  apply hold_other; reflexivity.

Ltac to_segment :=
  cbn [log]; rewrite <- ?app_assoc; cbn [app].

Section Ownership.

Context {L : Type} (lib : LibTypec L).

Lemma conn_capabilities_block_owns fuel typec i :
  hoare keeps (conn_capabilities_block lib typec i)
        (fun _ => keeps) (ends fuel).
Proof.
  intros c Hk. open_block.
  destruct (libtypec_rs_get_conn_capabilities lib (lib_state c) typec i)
    as [s r].
  destruct (negb (r =? 0)); to_segment.
  - apply ends_segment; [assumption| | |]; intros _;
      try discriminate.
    exists None. split; [|reflexivity].
    exists None. split; [plain_step|]. apply handover_one. plain_step.
  - apply keeps_segment; [assumption|]. intros _.
    apply handover_one. plain_step.
Qed.

Lemma cable_properties_block_owns fuel typec i :
  hoare keeps (cable_properties_block lib typec i)
        (fun _ => keeps) (ends fuel).
Proof.
  intros c Hk. open_block.
  destruct (libtypec_rs_get_cable_properties lib (lib_state c) typec i)
    as [s r].
  destruct (r =? 0); [|destruct (negb (r =? - ENOTSUP))]; to_segment.
  - apply keeps_segment; [assumption|]. intros _.
    apply handover_one. plain_step.
  - apply ends_segment; [assumption| | |]; intros _;
      try discriminate.
    exists None. split; [|reflexivity].
    exists None. split; [plain_step|]. apply handover_one. plain_step.
  - apply keeps_segment; [assumption|]. intros _.
    apply handover_one. plain_step.
Qed.

Lemma pd_message_block_owns fuel typec i recipient msg :
  hoare keeps (pd_message_block lib typec i recipient msg)
        (fun _ => keeps) (ends fuel).
Proof.
  intros c Hk. open_block.
  destruct (libtypec_rs_get_pd_message lib (lib_state c) typec i recipient
              PdMessageResponseType_DiscoverIdentity) as [s r].
  destruct (r =? 0); [|destruct (negb (r =? - ENOTSUP))]; to_segment.
  - apply keeps_segment; [assumption|]. intros _.
    apply handover_one. plain_step.
  - apply ends_segment; [assumption| | |]; intros _;
      try discriminate.
    exists None. split; [|reflexivity].
    exists None. split; [plain_step|]. apply handover_one. plain_step.
  - apply keeps_segment; [assumption|]. intros _.
    apply handover_one. plain_step.
Qed.

Lemma pdos_block_owns fuel typec i partner ty v msg out :
  hoare keeps (pdos_block lib typec i partner ty v msg out)
        (fun _ => keeps) (ends fuel).
Proof.
  intros c Hk. open_block.
  destruct (libtypec_rs_get_pdos lib (lib_state c) typec i partner 0 0 ty
              PdoSourceCapabilitiesType_CurrentSupportedSourceCapabilities
              v) as [s [r st]].
  destruct (r =? 0) eqn:Hr;
    [apply Z.eqb_eq in Hr; subst r | apply Z.eqb_neq in Hr].
  - destruct (t_ptr _ =? NULL) eqn:Hp; cbn [negb]; cbv beta iota;
      [apply Z.eqb_eq in Hp | apply Z.eqb_neq in Hp].
    + to_segment. apply ends_segment; [assumption| | |].
      * intros _. eexists. split; [|intros Hx; now destruct Hx].
        apply handover_one. now apply hold_call.
      * intros HF. apply Forall_cons_iff in HF as [He _].
        destruct (He eq_refl) as (t & -> & Ht). contradiction.
      * intros HF. apply Forall_cons_iff in HF as [He _].
        destruct (He eq_refl) as (t & -> & Ht). contradiction.
    + rewrite print_pdos_log. cbv beta iota. to_segment.
      apply keeps_segment; [assumption|]. intros HF.
      apply Forall_cons_iff in HF as [He _].
      destruct st as [t|]; [|now destruct (He eq_refl)].
      exists (Some (PdoArray, t)). split; [now apply hold_call|].
      eapply handover_app.
      * apply handover_PdPdo_printf. intros j Hj.
        apply indices_bounds in Hj. lia.
      * apply handover_one. now apply hold_release.
  - assert (Hg : forall st', granted
                   (Ev_get_pdos typec i partner 0 0 ty
              PdoSourceCapabilitiesType_CurrentSupportedSourceCapabilities
                      v r st') = None).
    { intros [t|]; cbn; [|reflexivity].
      apply Z.eqb_neq in Hr. now rewrite Hr. }
    pose proof (hold_call _ (eq_refl : is_variable_length_call (Ev_get_pdos typec i partner 0 0 ty
              PdoSourceCapabilitiesType_CurrentSupportedSourceCapabilities
              v r st) = true))
      as Hstep.
    rewrite Hg in Hstep.
    destruct (negb (r =? - ENOTSUP)); to_segment.
    + apply ends_segment; [assumption| | |]; intros _;
        try discriminate.
      exists None. split; [|reflexivity].
      exists None. split; [exact Hstep|].
      apply handover_one. plain_step.
    + apply keeps_segment; [assumption|]. intros _.
      apply handover_one. exact Hstep.
Qed.

Lemma alternate_modes_block_owns fuel typec recipient i msg modes :
  hoare keeps (alternate_modes_block lib fuel typec recipient i msg modes)
        (fun _ => keeps) (ends fuel).
Proof.
  intros c Hk. open_block.
  destruct (libtypec_rs_get_alternate_modes lib (lib_state c) typec
              recipient i) as [s [r st]].
  destruct (r =? 0) eqn:Hr;
    [apply Z.eqb_eq in Hr; subst r | apply Z.eqb_neq in Hr].
  - destruct (after_call st modes) as [m|] eqn:Hm; cbv beta iota.
    + rewrite print_alt_modes_log. cbn [lib_state log].
      destruct (alt_mode_visits fuel 0 (t_len m)) as [l done] eqn:Hv.
      assert (Hl : forall j, In j l -> 0 <= j < t_len m).
      { intros j Hj. apply (alt_mode_visits_bounds fuel 0 (t_len m) j);
          [lia | now rewrite Hv]. }
      destruct done; cbv beta iota; to_segment.
      * apply keeps_segment; [assumption|]. intros HF.
        apply Forall_cons_iff in HF as [He _].
        destruct st as [t|]; [|now destruct (He eq_refl)].
        cbn in Hm. injection Hm as ->.
        exists (Some (AltModeArray, m)). split; [now apply hold_call|].
        eapply handover_app.
        -- now apply handover_UcsiAlternateMode_printf.
        -- apply handover_one. now apply hold_release.
      * apply ends_segment; [assumption| | |].
        -- intros HF. apply Forall_cons_iff in HF as [He _].
           destruct st as [t|]; [|now destruct (He eq_refl)].
           cbn in Hm. injection Hm as ->.
           exists (Some (AltModeArray, m)).
           split; [|intros Hx; now destruct Hx].
           exists (Some (AltModeArray, m)).
           split; [now apply hold_call|].
           now apply handover_UcsiAlternateMode_printf.
        -- intros _. discriminate.
        -- intros HF. apply Forall_cons_iff in HF as [He _].
           destruct (He eq_refl) as (t & -> & Hu & Hf).
           cbn in Hm. injection Hm as ->.
           rewrite alt_mode_visits_done in Hv by lia. discriminate.
    + to_segment. apply ends_segment; [assumption| | |].
      * intros HF. apply Forall_cons_iff in HF as [He _].
        destruct st as [t|]; [discriminate | now destruct (He eq_refl)].
      * intros _. discriminate.
      * intros HF. apply Forall_cons_iff in HF as [He _].
        destruct (He eq_refl) as (t & -> & _). discriminate.
  - assert (Hg : forall st', granted
                   (Ev_get_alternate_modes typec recipient i r st')
                 = None).
    { intros [t|]; cbn; [|reflexivity].
      apply Z.eqb_neq in Hr. now rewrite Hr. }
    pose proof (hold_call _ (eq_refl : is_variable_length_call (Ev_get_alternate_modes typec recipient i r st) = true))
      as Hstep.
    rewrite Hg in Hstep.
    destruct (negb (r =? - ENOTSUP)); to_segment.
    + apply ends_segment; [assumption| | |]; intros _;
        try discriminate.
      exists None. split; [|reflexivity].
      exists None. split; [exact Hstep|].
      apply handover_one. plain_step.
    + apply keeps_segment; [assumption|]. intros _.
      apply handover_one. exact Hstep.
Qed.

Lemma connector_body_owns fuel typec caps i out :
  hoare keeps (connector_body lib fuel typec caps i out)
        (fun _ => keeps) (ends fuel).
Proof.
  unfold connector_body.
  eapply hoare_bind; [apply conn_capabilities_block_owns | intros ?].
  eapply hoare_bind; [apply pdos_block_owns | intros out1].
  eapply hoare_bind; [apply pdos_block_owns | intros out2].
  eapply hoare_bind; [apply cable_properties_block_owns | intros ?].
  eapply hoare_bind; [apply alternate_modes_block_owns | intros m1].
  eapply hoare_bind; [apply alternate_modes_block_owns | intros m2].
  eapply hoare_bind; [apply pd_message_block_owns | intros ?].
  eapply hoare_bind; [apply alternate_modes_block_owns | intros m3].
  eapply hoare_bind; [apply pd_message_block_owns | intros ?].
  eapply hoare_bind; [apply pdos_block_owns | intros out3].
  eapply hoare_bind; [apply pdos_block_owns | intros out4].
  apply hoare_ret. auto.
Qed.

Lemma connector_loop_owns fuel typec caps n :
  forall i out,
  hoare keeps (connector_loop lib fuel typec caps n i out)
        (fun _ => keeps) (ends fuel).
Proof.
  induction n as [|n IH]; intros i out; cbn [connector_loop].
  - apply hoare_ret. auto.
  - eapply hoare_bind; [apply connector_body_owns | intros out'].
    apply IH.
Qed.

End Ownership.

Lemma run_ends {L : Type} (lib : LibTypec L) (fuel : nat) (backend : Z)
    (s : L) :
  ends fuel (snd (run lib fuel backend s)) (fst (run lib fuel backend s)).
Proof.
  unfold run.
  set (m := c_example_lstypec lib fuel backend (mkConfig s [])).
  assert (H : match m with
              | Go _ c => ends fuel Completed (log c)
              | Halt o c => ends fuel o (log c)
              end); [|destruct m; exact H].
  assert (Hnil : keeps []) by (intros _; reflexivity).
  subst m. unfold c_example_lstypec.
  unfold read, fprintf_stderr, return_.
  unfold bind at 1. unfold call_new. cbn [lib_state log app].
  destruct (libtypec_rs_new lib s (backend_type backend))
    as [s1 [r0 [typec|]]].
  2:{ apply (ends_segment fuel Undefined [] _ Hnil).
      - intros _. exists None. split; [|reflexivity].
        apply handover_one. plain_step.
      - intros _. discriminate.
      - intros HF. apply Forall_cons_iff in HF as [He _].
        now destruct He. }
  unfold bind at 1. unfold ret at 1.
  destruct (typec =? NULL).
  { apply (ends_segment fuel _ [] _ Hnil); intros _; try discriminate.
    exists None. split; [|reflexivity].
    exists None. split; [plain_step|]. apply handover_one. plain_step. }
  unfold bind at 1. unfold call_get_capabilities. cbn [lib_state log app].
  destruct (libtypec_rs_get_capabilities lib s1 typec) as [s2 [r st]].
  destruct (r =? 0) eqn:Hr; cbn [negb].
  2:{ apply (ends_segment fuel _ [] _ Hnil); intros _; try discriminate.
      exists None. split; [|reflexivity].
      exists None. split; [plain_step|].
      exists None. split; [plain_step|]. apply handover_one. plain_step. }
  apply Z.eqb_eq in Hr. subst r.
  destruct st as [caps|].
  2:{ apply (ends_segment fuel Undefined [] _ Hnil).
      - intros _. exists None. split; [|reflexivity].
        exists None. split; [plain_step|]. apply handover_one. plain_step.
      - intros _. discriminate.
      - intros HF. apply Forall_cons_iff in HF as [_ HF].
        apply Forall_cons_iff in HF as [He _].
        now destruct (He eq_refl). }
  unfold bind at 1. unfold ret at 1.
  set (hd := [Ev_new (backend_type backend) r0 (Some typec);
              Ev_get_capabilities typec 0 (Some caps)]).
  assert (Hhd : keeps hd).
  { intros _. exists None. split; [plain_step|].
    apply handover_one. plain_step. }
  pose proof (connector_loop_owns lib fuel typec caps
                (Z.to_nat (num_connectors caps)) 0 (Triple NULL 0 0)
                (mkConfig s2 hd) Hhd) as H.
  unfold bind at 1.
  destruct (connector_loop lib fuel typec caps
              (Z.to_nat (num_connectors caps)) 0 (Triple NULL 0 0)
              (mkConfig s2 hd)) as [out c'|o c']; [|exact H].
  unfold bind, call_destroy, ret. cbn [log].
  apply ends_segment; [assumption| | |]; intros _; try discriminate.
  exists None. split; [|reflexivity]. apply handover_one. plain_step.
Qed.


(** Back from a held array to the call that granted it there are only
    reads of it. *)
Lemma handover_from_grant h0 tr k t :
  handover h0 tr (Some (k, t)) ->
  (h0 = Some (k, t) /\ Forall (reads_within k t) tr)
  \/ exists pre e prints,
       tr = pre ++ e :: prints
       /\ granted e = Some (k, t)
       /\ Forall (reads_within k t) prints.
Proof.
  revert h0; induction tr as [|e tr IH]; intros h0; cbn.
  - intros ->. left. split; [reflexivity | constructor].
  - intros (h1 & Hs & Hp).
    destruct (IH _ Hp) as [(-> & HF) | (pre & e' & prints & -> & Hg & HF)].
    + inversion Hs as [e0 Hv|e0 k' t' i Ht Hi| |]; subst.
      * right. exists [], e, tr. repeat split; assumption.
      * left. split; [reflexivity|].
        constructor; [now exists i | assumption].
    + right. exists (e :: pre), e', prints. repeat split; assumption.
Qed.



Lemma touched_is_printer e x :
  touched e = Some x ->
  is_variable_length_call e = false /\ released e = None
  /\ granted e = None.
Proof.
  destruct e; cbn; try discriminate; intros _; repeat split.
Qed.



(** Every read is inside the array granted by the call before it. *)
Lemma touch_is_within tr h pre p post k a i :
  handover None tr h ->
  tr = pre ++ p :: post ->
  touched p = Some (k, a, i) ->
  exists pre' e prints t,
    pre = pre' ++ e :: prints
    /\ granted e = Some (k, t)
    /\ Forall (reads_within k t) prints
    /\ a = t_ptr t /\ 0 <= i < t_len t.
Proof.
  intros H -> Ht.
  apply handover_split in H as (h2 & Hpre & (h3 & Hs & _)).
  destruct (touched_is_printer _ _ Ht) as (Hv & Hr & Hg).
  inversion Hs as [|e0 k' t' i' Ht' Hi| |]; subst; try congruence.
  rewrite Ht in Ht'. injection Ht' as <- -> <-.
  destruct (handover_from_grant _ _ _ _ Hpre)
    as [(Hn & _)|(pre' & e & prints & -> & Hg' & HF)]; [discriminate|].
  exists pre', e, prints, t'. repeat split; assumption || lia.
Qed.

(* ------------------------------------------------------------------ *)
(** ** Runs that complete *)









Lemma stores_array_stores e : stores_array_on_success e ->
  stores_on_success e.
Proof.
  destruct e; cbn; auto; intros H Hr; destruct (H Hr) as (t & -> & _);
    discriminate.
Qed.

Lemma granted_not_null e k t :
  stores_array_on_success e -> granted e = Some (k, t) ->
  t_ptr t <> NULL.
Proof.
  destruct e as [ | | | |h c pa o n ty sr v r stored| |
                 |h rc c r stored| | | | | ]; cbn; try discriminate.
  - destruct stored as [t'|]; [|discriminate].
    destruct (r =? 0) eqn:Hr; [|discriminate].
    apply Z.eqb_eq in Hr. intros H [= <- <-].
    destruct (H Hr) as (t0 & [= <-] & Hp). exact Hp.
  - destruct stored as [t'|]; [|discriminate].
    destruct (r =? 0) eqn:Hr; [|discriminate].
    apply Z.eqb_eq in Hr. intros H [= <- <-].
    destruct (H Hr) as (t0 & [= <-] & Hp). exact Hp.
Qed.

(** C10. Against answers that store an array pointer other than [NULL]
    whenever a variable-length call answers 0, no [assert] fails, and
    every element handed to a printer belongs to the array stored by the
    call just before the print loop: same pointer, not [NULL], index at
    least 0 and below the stored length. *)
Theorem reads_stay_inside_the_array
    {L : Type} (lib : LibTypec L) (fuel : nat) (backend : Z) (s : L) :
  Forall stores_array_on_success (fst (run lib fuel backend s)) ->
  snd (run lib fuel backend s) <> AssertFailed
  /\ forall pre p post k a i,
       fst (run lib fuel backend s) = pre ++ p :: post ->
       touched p = Some (k, a, i) ->
       exists pre' e prints t,
         pre = pre' ++ e :: prints
         /\ granted e = Some (k, t)
         /\ Forall (reads_within k t) prints
         /\ a = t_ptr t /\ a <> NULL /\ 0 <= i < t_len t.
Proof.
  intros HA.
  destruct (run_ends lib fuel backend s) as (Hh & Hassert & _).
  split; [now apply Hassert|].
  destruct Hh as (h & Hho & _).
  { eapply Forall_impl; [|exact HA]. apply stores_array_stores. }
  intros pre p post k a i Htr Ht.
  destruct (touch_is_within _ _ _ _ _ _ _ _ Hho Htr Ht)
    as (pre' & e & prints & t & -> & Hg & HF & -> & Hi).
  exists pre', e, prints, t. repeat split; try assumption; try lia.
  apply granted_not_null with (e := e) (k := k); [|assumption].
  rewrite Forall_forall in HA. apply HA. rewrite Htr.
  apply in_app_iff. left. apply in_app_iff. right. now left.
Qed.

(** C8. When [libtypec_rs_new] keeps its contract and fails, the run is
    that one call and the message about it, and returns the negative
    code of the call. *)
Theorem failed_creation_returns_its_code
    {L : Type} (lib : LibTypec L) (fuel : nat) (backend : Z) (s : L) :
  (forall s' b, new_contract (snd (libtypec_rs_new lib s' b))) ->
  fst (snd (libtypec_rs_new lib s (backend_type backend))) <> 0 ->
  exists r,
    r < 0
    /\ run lib fuel backend s
       = ([Ev_new (backend_type backend) r (Some NULL);
           Ev_stderr "Failed to create TypecRs instance\n"],
          EarlyReturn r).
Proof.
  intros Hc Hfail. specialize (Hc s (backend_type backend)).
  unfold run, c_example_lstypec, bind, call_new, read, fprintf_stderr,
    return_, emit, halt, ret.
  cbn [lib_state log app].
  destruct (libtypec_rs_new lib s (backend_type backend))
    as [s1 [r stored]].
  unfold new_contract in Hc. cbn [fst snd] in *.
  destruct Hc as [(Hr & _)|(Hr & ->)]; [contradiction|].
  exists r. split; [assumption|]. reflexivity.
Qed.

(* ------------------------------------------------------------------ *)
(** ** Runs against concrete libraries *)

(** Decides a property of one concrete event. *)
Ltac event_holds :=
  hnf;
  repeat match goal with
  | |- True => exact I
  | |- _ /\ _ => split
  | |- exists _, _ => eexists
  | |- _ \/ _ =>
      first [ left; solve [event_holds] | right; solve [event_holds] ]
  | |- _ <= _ => vm_compute; discriminate
  | |- _ <> _ => vm_compute; discriminate
  | |- _ = _ -> _ =>
      let H := fresh in
      intros H; try (vm_compute in H; discriminate H)
  | |- _ = _ => reflexivity
  end.

(** Decides a property of every event of a concrete log. *)
Ltac events_hold :=
  match goal with
  | |- Forall _ ?l =>
      let l' := fresh "l" in
      set (l' := l); vm_compute in l'; subst l'
  end;
  repeat (apply Forall_cons; [solve [event_holds]|]);
  apply Forall_nil.

Example no_partner_run :
  snd (run no_partner_lib 4 0 tt) = Completed
  /\ List.length (fst (run no_partner_lib 4 0 tt)) = 41%nat.
Proof. vm_compute. split; reflexivity. Qed.

Example backend_zero_run :
  created (fst (run no_partner_lib 4 0 tt)) = [OsBackends_Sysfs].
Proof. reflexivity. Qed.

Example backend_debugfs_run :
  created (fst (run no_partner_lib 4 OsBackends_UcsiDebugfs tt))
  = [OsBackends_UcsiDebugfs].
Proof. reflexivity. Qed.



(** Why [interface_kept] asks for an array with an answer of 0.  No
    partner is attached, the partner queries of connector 0 answer
    [-ENOTSUP] and the run goes past them; on connector 1 the source PDO
    query answers 0 and stores [NULL], against the rules of the
    interface, and the run stops at [assert(out_pdos)]. *)
Lemma null_array_aborts_the_run :
  Forall partner_not_supported (fst (run null_array_lib 4 0 tt))
  /\ Forall tolerable (fst (run null_array_lib 4 0 tt))
  /\ In (Q_pdos true PdoType_Sink, 0)
        (queries (fst (run null_array_lib 4 0 tt)))
  /\ snd (run null_array_lib 4 0 tt) = AssertFailed
  /\ exit_status (snd (run null_array_lib 4 0 tt)) <> Some 0.
Proof.
  split; [events_hold|]. split; [events_hold|].
  split; [vm_compute; tauto|].
  vm_compute. split; [reflexivity | discriminate].
Qed.


(** Why [interface_kept] asks for a length an [unsigned int] holds.  With
    2^32 alternate modes the counter of the print loop (lines 125, 143
    and 175) wraps before it reaches the length, and no budget lets the
    run return. *)
Lemma many_modes_never_return (fuel : nat) :
  snd (run many_modes_lib fuel 0 tt) = OutOfFuel.
Proof.
  unfold run, c_example_lstypec.
  cbv -[print_alt_modes].
  rewrite print_alt_modes_log.
  pose proof (alt_mode_visits_spin fuel 0 4294967296) as H.
  destruct (alt_mode_visits fuel 0 4294967296) as [l done].
  cbn [snd] in H. rewrite H by (unfold UINT_MAX; lia). reflexivity.
Qed.

(** The two provisos of the ownership rule at work.  Against
    [null_array_lib] the last event of the run is a PDO query that
    answered 0 and stored a triple: the run stopped at the [assert]
    before the destroyer.  Against [stale_triple_lib], which answers 0
    without storing a triple, the destroyer gets the triple the failed
    query before had stored: no call before the destroyer granted
    anything. *)
Lemma array_not_released_or_not_granted :
  (granted (last (fst (run null_array_lib 4 0 tt)) (Ev_destroy NULL))
   = Some (PdoArray, Triple NULL 0 0)
   /\ snd (run null_array_lib 4 0 tt) = AssertFailed)
  /\ (nth 3 (fst (run stale_triple_lib 4 0 tt)) (Ev_destroy NULL)
      = Ev_get_pdos 4096 0 false 0 0 PdoType_Source
          PdoSourceCapabilitiesType_CurrentSupportedSourceCapabilities
          768 (- ENOTSUP) (Some (Triple 8192 2 64))
      /\ nth 7 (fst (run stale_triple_lib 4 0 tt)) (Ev_destroy NULL)
         = Ev_destroy_pdos (Triple 8192 2 64)
      /\ Forall (fun e => granted e = None)
                (firstn 7 (fst (run stale_triple_lib 4 0 tt)))
      /\ snd (run stale_triple_lib 4 0 tt) = Completed).
Proof.
  split; [vm_compute; split; reflexivity|].
  split; [reflexivity|]. split; [reflexivity|].
  split; [|reflexivity].
  match goal with
  | |- Forall _ ?l =>
      let l' := fresh "l" in
      set (l' := l); vm_compute in l'; subst l'
  end.
  repeat (apply Forall_cons; [reflexivity|]). apply Forall_nil.
Qed.



Lemma pd_version_is_the_cached_one_witness :
  exists b r0 typec caps rest,
    fst (run no_partner_lib 4 0 tt)
    = Ev_new b r0 (Some typec)
      :: Ev_get_capabilities typec 0 (Some caps) :: rest
    /\ 768 = pd_version caps.
Proof.
  destruct (pd_version_is_the_cached_one no_partner_lib 4 0 tt
              (Ev_get_pdos 4096 0 false 0 0 PdoType_Source
          PdoSourceCapabilitiesType_CurrentSupportedSourceCapabilities
                 768 0 (Some (Triple 8192 2 64)))
              768)
    as (b & r0 & typec & caps & rest & Htr & _ & _ & Hv).
  - vm_compute. do 3 right. left. reflexivity.
  - reflexivity.
  - exists b, r0, typec, caps, rest. split; assumption.
Defined.

(** C7 fails as stated: a failure of
    [libtypec_rs_get_capabilities] with [-EIO] makes the run return -5,
    not 1, and a backend that is not there makes it return -19, not 2. *)
Lemma exit_status_is_not_remapped :
  exit_status (snd (run io_error_lib 4 0 tt)) = Some (-5)
  /\ exit_status (snd (run io_error_lib 4 0 tt)) <> Some 1
  /\ exit_status (snd (run no_backend_lib 4 0 tt)) = Some (-19)
  /\ exit_status (snd (run no_backend_lib 4 0 tt)) <> Some 2.
Proof. vm_compute. repeat split; discriminate. Qed.

Lemma exit_status_is_the_failed_call_result_witness :
  exit_status (snd (run io_error_lib 4 0 tt)) = Some (-5)
  /\ exists pre e msg,
       fst (run io_error_lib 4 0 tt) = pre ++ [e; Ev_stderr msg]
       /\ ret_of e = Some (-5).
Proof.
  assert (Hz : exit_status (snd (run io_error_lib 4 0 tt)) = Some (-5))
    by reflexivity.
  split; [exact Hz|].
  destruct (exit_status_is_the_failed_call_result io_error_lib 4 0 tt
              (-5) Hz)
    as [(Ho & _)|(pre & e & msg & Htr & Hr & _)].
  - discriminate Ho.
  - exists pre, e, msg. split; assumption.
Defined.

Lemma failed_creation_returns_its_code_witness :
  exists r,
    r < 0
    /\ run no_backend_lib 4 0 tt
       = ([Ev_new (backend_type 0) r (Some NULL);
           Ev_stderr "Failed to create TypecRs instance\n"],
          EarlyReturn r).
Proof.
  apply (failed_creation_returns_its_code no_backend_lib 4 0 tt).
  - intros s' b. right. split; [reflexivity | reflexivity].
  - vm_compute. discriminate.
Defined.

Lemma instance_destroyed_only_on_completion_witness :
  destroyed (fst (run io_error_lib 4 0 tt)) = []
  /\ exists r,
       ret_of (Ev_get_capabilities 4096 (-5) None) = Some r
       /\ snd (run io_error_lib 4 0 tt) = EarlyReturn r
       /\ destroyed (fst (run io_error_lib 4 0 tt)) = [].
Proof.
  destruct (instance_destroyed_only_on_completion io_error_lib 4 0 tt)
    as (Hm & Hf).
  split; [exact Hm|].
  apply Hf.
  - vm_compute. right. left. reflexivity.
  - vm_compute. discriminate.
Defined.

Lemma reads_stay_inside_the_array_witness :
  Forall stores_array_on_success (fst (run no_partner_lib 4 0 tt))
  /\ snd (run no_partner_lib 4 0 tt) <> AssertFailed.
Proof.
  assert (HA : Forall stores_array_on_success
                 (fst (run no_partner_lib 4 0 tt))) by events_hold.
  split; [exact HA|].
  exact (proj1 (reads_stay_inside_the_array no_partner_lib 4 0 tt HA)).
Defined.

(* ================================================================== *)
(** * Further properties of the client *)

(* ------------------------------------------------------------------ *)
(** ** The alternate-mode print loop *)

(** When the loop leaves, it has visited each index below the length
    once, in order. *)
Lemma alt_mode_visits_exact (fuel : nat) (i n : Z) (l : list Z) :
  0 <= i ->
  n <= UINT_MAX ->
  alt_mode_visits fuel i n = (l, true) ->
  l = indices (Z.to_nat (n - i)) i.
Proof.
  revert i l; induction fuel as [|f IH]; intros i l Hi Hn;
    cbn [alt_mode_visits].
  - destruct (i <? n) eqn:E; [discriminate|].
    apply Z.ltb_ge in E. intros [= <-].
    replace (Z.to_nat (n - i)) with O by lia. reflexivity.
  - destruct (i <? n) eqn:E.
    + apply Z.ltb_lt in E.
      assert (Hw : (i + 1) mod (UINT_MAX + 1) = i + 1).
      { apply Z.mod_small. unfold UINT_MAX in *. lia. }
      rewrite Hw.
      destruct (alt_mode_visits f (i + 1) n) as [l' d] eqn:V.
      intros [= <- ->].
      rewrite (IH (i + 1) l') by (lia || assumption).
      replace (Z.to_nat (n - i)) with (S (Z.to_nat (n - (i + 1)))) by lia.
      reflexivity.
    + apply Z.ltb_ge in E. intros [= <-].
      replace (Z.to_nat (n - i)) with O by lia. reflexivity.
Qed.

(** When the loop does not leave, the length is beyond [UINT_MAX] or
    beyond the budget. *)
Lemma alt_mode_visits_short (fuel : nat) (n : Z) (l : list Z) :
  alt_mode_visits fuel 0 n = (l, false) ->
  UINT_MAX < n \/ Z.of_nat fuel < n.
Proof.
  intros H.
  destruct (Z_le_gt_dec n UINT_MAX) as [Hn|Hn]; [|left; lia].
  destruct (Z_le_gt_dec n (Z.of_nat fuel)) as [Hf|Hf]; [|right; lia].
  rewrite alt_mode_visits_done in H by lia. discriminate.
Qed.

(** When the loop, started at 0, leaves, the length is one an
    [unsigned int] reaches and each index below it was visited once. *)
Lemma alt_mode_visits_leaves (fuel : nat) (n : Z) (l : list Z) :
  alt_mode_visits fuel 0 n = (l, true) ->
  n <= UINT_MAX /\ l = indices (Z.to_nat n) 0.
Proof.
  intros V.
  assert (Hn : n <= UINT_MAX).
  { destruct (Z_le_gt_dec n UINT_MAX) as [Hn|Hn]; [assumption|].
    assert (Hs : snd (alt_mode_visits fuel 0 n) = false).
    { apply alt_mode_visits_spin; unfold UINT_MAX in *; lia. }
    rewrite V in Hs. discriminate Hs. }
  split; [assumption|].
  apply alt_mode_visits_exact in V; [|lia|assumption].
  now rewrite Z.sub_0_r in V.
Qed.

Section AltModeLoop.

Context {L : Type}.

(** The loop, started at 0, goes on to the next statement only with a
    length an [unsigned int] reaches, and then after one visit to each
    index below it. *)
Lemma print_alt_modes_leaves (fuel : nat) (p : ptr) (n : Z)
    (c c' : config L) :
  print_alt_modes fuel 0 p n c = Go tt c' ->
  n <= UINT_MAX
  /\ c' = mkConfig (lib_state c)
            (log c ++ map (Ev_UcsiAlternateMode_printf p)
                          (indices (Z.to_nat n) 0)).
Proof.
  intros H. rewrite print_alt_modes_log in H.
  destruct (alt_mode_visits fuel 0 n) as [l done] eqn:V.
  destruct done; [|discriminate].
  apply alt_mode_visits_leaves in V as [Hn ->].
  split; [assumption|]. now injection H as <-.
Qed.

(** X1. The loop of lines 125-127 (and 143-145, 175-177) comes to an
    end, for some number of iterations, exactly when the length is at
    most [UINT_MAX]. *)
Theorem alt_mode_loop_ends_iff (p : ptr) (n : Z) (c : config L) :
  (exists fuel c', print_alt_modes fuel 0 p n c = Go tt c')
  <-> n <= UINT_MAX.
Proof.
  split.
  - intros (fuel & c' & H). now apply print_alt_modes_leaves in H.
  - intros Hn. exists (Z.to_nat n). eexists.
    rewrite print_alt_modes_log, alt_mode_visits_done by lia.
    reflexivity.
Qed.

(** X2. When the loop comes to an end it has handed the elements 0, 1,
    ..., [nmodes - 1] to the printer, each once and in this order, and
    has made no other call. *)
Theorem alt_mode_loop_prints_each_once (fuel : nat) (p : ptr) (n : Z)
    (c c' : config L) :
  print_alt_modes fuel 0 p n c = Go tt c' ->
  lib_state c' = lib_state c
  /\ log c' = log c
              ++ map (Ev_UcsiAlternateMode_printf p)
                     (indices (Z.to_nat n) 0).
Proof.
  intros H. apply print_alt_modes_leaves in H as [_ ->].
  split; reflexivity.
Qed.

End AltModeLoop.

(* ------------------------------------------------------------------ *)
(** ** Creation and the handle *)

(** X3. Every call of a run that takes the handle is made on the handle
    [libtypec_rs_new] stored, and that handle is not [NULL]. *)
Theorem every_call_is_on_the_created_handle
    {L : Type} (lib : LibTypec L) (fuel : nat) (backend : Z) (s : L)
    (e : event) (h : ptr) :
  In e (fst (run lib fuel backend s)) ->
  handle_of e = Some h ->
  h <> NULL
  /\ exists b r rest,
       fst (run lib fuel backend s) = Ev_new b r (Some h) :: rest.
Proof.
  intros Hin Hh.
  assert (Hpost : forall typec caps post,
             Forall (inner typec caps) post -> In e post -> h = typec).
  { intros typec caps post HF Hi.
    rewrite Forall_forall in HF. specialize (HF e Hi).
    destruct e; cbn in Hh, HF; try discriminate; try contradiction;
      injection Hh as <-; tauto. }
  revert Hin.
  destruct (run_has_form lib fuel backend s)
    as [r|r msg|r0 typec r st msg Hp _|r0 typec Hp
        |r0 typec caps post o Hp HF _ _|r0 typec caps post Hp HF _ _];
    cbn [app]; intros Hin.
  - destruct Hin as [<-|[]]. discriminate.
  - destruct Hin as [<-|[<-|[]]]; discriminate.
  - destruct Hin as [<-|[<-|[<-|[]]]]; try discriminate.
    injection Hh as <-. split; [assumption | eauto].
  - destruct Hin as [<-|[<-|[]]]; try discriminate.
    injection Hh as <-. split; [assumption | eauto].
  - destruct Hin as [<-|[<-|Hin]]; try discriminate.
    + injection Hh as <-. split; [assumption | eauto].
    + rewrite (Hpost _ _ _ HF Hin). split; [assumption | eauto].
  - destruct Hin as [<-|[<-|Hin]]; try discriminate.
    + injection Hh as <-. split; [assumption | eauto].
    + apply in_app_iff in Hin. destruct Hin as [Hin|[<-|[]]].
      * rewrite (Hpost _ _ _ HF Hin). split; [assumption | eauto].
      * injection Hh as <-. split; [assumption | eauto].
Qed.

(** X4. When [libtypec_rs_new] stores [NULL], the run is that call and
    the message about it, and returns the result of the call whatever
    it is: with a result of 0 the run reports the failure and returns
    0. *)
Theorem null_handle_returns_the_result_of_new
    {L : Type} (lib : LibTypec L) (fuel : nat) (backend : Z) (s s1 : L)
    (r : Z) :
  libtypec_rs_new lib s (backend_type backend) = (s1, (r, Some NULL)) ->
  run lib fuel backend s
  = ([Ev_new (backend_type backend) r (Some NULL);
      Ev_stderr "Failed to create TypecRs instance\n"],
     EarlyReturn r).
Proof.
  intros H.
  unfold run, c_example_lstypec, bind, call_new, read, fprintf_stderr,
    return_, emit, halt, ret.
  cbn [lib_state log app]. rewrite H. reflexivity.
Qed.

(** X5. When [libtypec_rs_new] stores a handle other than [NULL], the
    run goes on to [libtypec_rs_get_capabilities] on that handle
    whatever the result of [libtypec_rs_new] is: the test of line 30
    looks at the pointer alone. *)
Theorem stored_handle_is_used_whatever_the_result
    {L : Type} (lib : LibTypec L) (fuel : nat) (backend : Z) (s s1 : L)
    (r : Z) (p : ptr) :
  libtypec_rs_new lib s (backend_type backend) = (s1, (r, Some p)) ->
  p <> NULL ->
  exists r' stored rest,
    fst (run lib fuel backend s)
    = Ev_new (backend_type backend) r (Some p)
      :: Ev_get_capabilities p r' stored :: rest
    /\ (r', stored) = snd (libtypec_rs_get_capabilities lib s1 p).
Proof.
  intros H Hp.
  unfold run, c_example_lstypec.
  unfold read, fprintf_stderr, return_.
  unfold bind at 1. unfold call_new. cbn [lib_state log app].
  rewrite H.
  unfold bind at 1. unfold ret at 1.
  rewrite (proj2 (Z.eqb_neq _ _) Hp).
  unfold bind at 1. unfold call_get_capabilities. cbn [lib_state log app].
  destruct (libtypec_rs_get_capabilities lib s1 p) as [s2 [r' st]].
  exists r', st. cbn [snd].
  destruct (r' =? 0) eqn:Hr; cbn [negb].
  2:{ eexists. split; reflexivity. }
  destruct st as [caps|]; [|eexists; split; reflexivity].
  unfold bind at 1. unfold ret at 1.
  apply Z.eqb_eq in Hr. subst r'.
  set (hd := [Ev_new (backend_type backend) r (Some p);
              Ev_get_capabilities p 0 (Some caps)]).
  pose proof (connector_loop_form lib hd p caps fuel
                (Z.to_nat (num_connectors caps)) [] 0 (Triple NULL 0 0)
                (mkConfig s2 hd)) as F.
  unfold bind at 1.
  destruct (connector_loop lib fuel p caps
              (Z.to_nat (num_connectors caps)) 0 (Triple NULL 0 0)
              (mkConfig s2 hd)) as [out c'|o c'].
  - unfold bind, call_destroy, ret. cbn [log fst].
    destruct F as (post & Hlog & _).
    { exists []. rewrite app_nil_r. repeat split; constructor. }
    rewrite Hlog, <- app_assoc. eexists. split; reflexivity.
  - destruct F as (post & Hlog & _).
    { exists []. rewrite app_nil_r. repeat split; constructor. }
    cbn [fst]. rewrite Hlog. eexists. split; reflexivity.
Qed.

(** X6. With no connector the loop body never runs: the run creates the
    instance, asks the capabilities, destroys the instance and returns
    0, and makes no other call. *)
Theorem no_connector_no_query
    {L : Type} (lib : LibTypec L) (fuel : nat) (backend : Z)
    (s s1 s2 : L) (r : Z) (p : ptr) (caps : UcsiCapability) :
  libtypec_rs_new lib s (backend_type backend) = (s1, (r, Some p)) ->
  p <> NULL ->
  libtypec_rs_get_capabilities lib s1 p = (s2, (0, Some caps)) ->
  num_connectors caps <= 0 ->
  run lib fuel backend s
  = ([Ev_new (backend_type backend) r (Some p);
      Ev_get_capabilities p 0 (Some caps);
      Ev_destroy p],
     Completed).
Proof.
  intros Hnew Hp Hcaps Hn.
  unfold run, c_example_lstypec.
  unfold read, fprintf_stderr, return_.
  unfold bind at 1. unfold call_new. cbn [lib_state log app].
  rewrite Hnew.
  unfold bind at 1. unfold ret at 1.
  rewrite (proj2 (Z.eqb_neq _ _) Hp).
  unfold bind at 1. unfold call_get_capabilities. cbn [lib_state log app].
  rewrite Hcaps. cbn [Z.eqb negb].
  unfold bind at 1. unfold ret at 1.
  replace (Z.to_nat (num_connectors caps)) with O by lia.
  reflexivity.
Qed.

(* ------------------------------------------------------------------ *)
(** ** How a run goes on and how it stops, block by block *)

Lemma initial_part_firstn {A} (X l total : list A) (n : nat) :
  initial_part (X ++ l) total -> initial_part (X ++ firstn n l) total.
Proof.
  intros (rest & ->). exists (skipn n l ++ rest).
  rewrite <- (firstn_skipn n l) at 1. now rewrite <- !app_assoc.
Qed.

Lemma initial_part_shorter {A} (X l total : list A) :
  initial_part (X ++ l) total -> initial_part X total.
Proof. intros (rest & ->). exists (l ++ rest). now rewrite app_assoc. Qed.

Lemma Forall_passed_PdPdo_printf p l :
  p <> NULL -> Forall passed (map (Ev_PdPdo_printf p) l).
Proof. intros Hp. apply Forall_forall. intros e H. apply in_map_iff in H.
  destruct H as (j & <- & _). exact Hp. Qed.

Lemma Forall_passed_UcsiAlternateMode_printf p l :
  Forall passed (map (Ev_UcsiAlternateMode_printf p) l).
Proof. apply Forall_forall. intros e H. apply in_map_iff in H.
  destruct H as (j & <- & _). exact I. Qed.

Lemma told_segment X tr seg Y :
  told X tr -> Forall passed seg -> queries seg = Y ->
  told (X ++ Y) (tr ++ seg).
Proof.
  intros [HF HQ] Hs Hq. split.
  - apply Forall_app. now split.
  - now rewrite queries_app, HQ, Hq.
Qed.

Lemma cut_segment fuel total X tr seg Y o pre tail :
  told X tr ->
  seg = pre ++ tail -> Forall passed pre -> last_events fuel o tail ->
  queries seg = Y -> initial_part (X ++ Y) total ->
  cut fuel total o (tr ++ seg).
Proof.
  intros [HF HQ] -> Hp Hl Hq Hi. split.
  - exists (tr ++ pre), tail. split; [now rewrite app_assoc|].
    split; [|assumption]. apply Forall_app. now split.
  - now rewrite queries_app, HQ, Hq.
Qed.

(** The queries of the events a block adds. *)
Ltac segment_queries :=
  cbn [queries query_of app];
  rewrite ?queries_app, ?queries_PdPdo_printf,
    ?queries_UcsiAlternateMode_printf;
  cbn [queries query_of app]; reflexivity.

(** The block goes on after one call. *)
Ltac told_on Ht :=
  apply (told_segment _ _ _ _ Ht);
  [ apply Forall_cons; [unfold ENOTSUP in *; cbn; lia | constructor]
  | segment_queries ].

(** The block returns after a call and its message. *)
Ltac cut_return Ht Hi :=
  eapply (cut_segment _ _ _ _ _ _ _ [] _ Ht);
  [ reflexivity
  | constructor
  | cbn [last_events]; eexists _, _;
    split; [reflexivity | split; [reflexivity | split; [reflexivity |]]];
    left; unfold ENOTSUP in *; cbn; lia
  | segment_queries
  | exact Hi ].

Section Told.

Context {L : Type} (lib : LibTypec L).

Variables (fuel : nat) (total : list (query * Z)).

Lemma conn_capabilities_block_told X typec i :
  initial_part (X ++ [(Q_conn_capabilities, i)]) total ->
  hoare (told X) (conn_capabilities_block lib typec i)
        (fun _ => told (X ++ [(Q_conn_capabilities, i)]))
        (cut fuel total).
Proof.
  intros Hi c Ht. open_block.
  destruct (libtypec_rs_get_conn_capabilities lib (lib_state c) typec i)
    as [s r].
  destruct (r =? 0) eqn:Hr; cbn [negb];
    [apply Z.eqb_eq in Hr | apply Z.eqb_neq in Hr]; to_segment.
  - told_on Ht.
  - cut_return Ht Hi.
Qed.

Lemma cable_properties_block_told X typec i :
  initial_part (X ++ [(Q_cable_properties, i)]) total ->
  hoare (told X) (cable_properties_block lib typec i)
        (fun _ => told (X ++ [(Q_cable_properties, i)]))
        (cut fuel total).
Proof.
  intros Hi c Ht. open_block.
  destruct (libtypec_rs_get_cable_properties lib (lib_state c) typec i)
    as [s r].
  destruct (r =? 0) eqn:Hr;
    [apply Z.eqb_eq in Hr | apply Z.eqb_neq in Hr].
  - to_segment. told_on Ht.
  - destruct (r =? - ENOTSUP) eqn:Hn; cbn [negb];
      [apply Z.eqb_eq in Hn | apply Z.eqb_neq in Hn]; to_segment.
    + told_on Ht.
    + cut_return Ht Hi.
Qed.

Lemma pd_message_block_told X typec i recipient :
  initial_part (X ++ [(Q_pd_message recipient, i)]) total ->
  hoare (told X)
        (pd_message_block lib typec i recipient
           (pd_message_message recipient))
        (fun _ => told (X ++ [(Q_pd_message recipient, i)]))
        (cut fuel total).
Proof.
  intros Hi c Ht. open_block.
  destruct (libtypec_rs_get_pd_message lib (lib_state c) typec i recipient
              PdMessageResponseType_DiscoverIdentity) as [s r].
  destruct (r =? 0) eqn:Hr;
    [apply Z.eqb_eq in Hr | apply Z.eqb_neq in Hr].
  - to_segment. told_on Ht.
  - destruct (r =? - ENOTSUP) eqn:Hn; cbn [negb];
      [apply Z.eqb_eq in Hn | apply Z.eqb_neq in Hn]; to_segment.
    + told_on Ht.
    + cut_return Ht Hi.
Qed.

Lemma pdos_block_told X typec i partner ty v out :
  initial_part (X ++ [(Q_pdos partner ty, i)]) total ->
  (partner = true -> t_ptr out = NULL) ->
  hoare (told X)
        (pdos_block lib typec i partner ty v (pdos_message partner ty) out)
        (fun _ => told (X ++ [(Q_pdos partner ty, i)]))
        (cut fuel total).
Proof.
  intros Hi Hout c Ht. open_block.
  destruct (libtypec_rs_get_pdos lib (lib_state c) typec i partner 0 0 ty
              PdoSourceCapabilitiesType_CurrentSupportedSourceCapabilities
              v) as [s [r st]].
  destruct (r =? 0) eqn:Hr;
    [apply Z.eqb_eq in Hr; subst r | apply Z.eqb_neq in Hr].
  - destruct (t_ptr _ =? NULL) eqn:Hp; cbn [negb]; cbv beta iota;
      [apply Z.eqb_eq in Hp | apply Z.eqb_neq in Hp].
    + to_segment.
      eapply (cut_segment _ _ _ _ _ _ _ [] _ Ht);
        [reflexivity | constructor | | segment_queries | exact Hi].
      cbn [last_events]. eexists. split; [reflexivity|].
      split; [reflexivity|]. intros t ->. exact Hp.
    + rewrite print_pdos_log. cbv beta iota. to_segment.
      apply (told_segment _ _ _ _ Ht); [|segment_queries].
      constructor.
      * right. split; [reflexivity|]. intros Hpt.
        destruct st as [t|]; [eauto|]. now destruct Hp; apply Hout.
      * apply Forall_app. split.
        -- now apply Forall_passed_PdPdo_printf.
        -- repeat constructor. exact Hp.
  - destruct (r =? - ENOTSUP) eqn:Hn; cbn [negb];
      [apply Z.eqb_eq in Hn | apply Z.eqb_neq in Hn]; to_segment.
    + told_on Ht.
    + cut_return Ht Hi.
Qed.

Lemma alternate_modes_block_told X typec recipient i modes :
  initial_part (X ++ [(Q_alternate_modes recipient, i)]) total ->
  hoare (told X)
        (alternate_modes_block lib fuel typec recipient i
           (alternate_modes_message recipient) modes)
        (fun _ => told (X ++ [(Q_alternate_modes recipient, i)]))
        (cut fuel total).
Proof.
  intros Hi c Ht. open_block.
  destruct (libtypec_rs_get_alternate_modes lib (lib_state c) typec
              recipient i) as [s [r st]].
  destruct (r =? 0) eqn:Hr;
    [apply Z.eqb_eq in Hr; subst r | apply Z.eqb_neq in Hr].
  - destruct (after_call st modes) as [m|] eqn:Hm; cbv beta iota.
    + rewrite print_alt_modes_log. cbn [lib_state log].
      destruct (alt_mode_visits fuel 0 (t_len m)) as [l done] eqn:Hv.
      destruct done; cbv beta iota; to_segment.
      * apply (told_segment _ _ _ _ Ht); [|segment_queries].
        constructor; [now left|]. apply Forall_app. split.
        -- apply Forall_passed_UcsiAlternateMode_printf.
        -- repeat constructor.
      * eapply (cut_segment _ _ _ _ _ _ _ [] _ Ht);
          [reflexivity | constructor | | segment_queries | exact Hi].
        cbn [last_events]. exists
          (Ev_get_alternate_modes typec recipient i 0 st), m, l.
        split; [reflexivity|]. split; [reflexivity|]. split.
        -- intros t ->. cbn in Hm. now injection Hm.
        -- eapply alt_mode_visits_short; eassumption.
    + to_segment.
      eapply (cut_segment _ _ _ _ _ _ _ [] _ Ht);
        [reflexivity | constructor | | segment_queries | exact Hi].
      cbn [last_events]. eexists. split; [reflexivity|].
      destruct st as [t|]; [discriminate|]. reflexivity.
  - destruct (r =? - ENOTSUP) eqn:Hn; cbn [negb];
      [apply Z.eqb_eq in Hn | apply Z.eqb_neq in Hn]; to_segment.
    + told_on Ht.
    + cut_return Ht Hi.
Qed.

Lemma connector_body_told X typec caps i out :
  initial_part (X ++ map (fun q => (q, i)) per_connector) total ->
  hoare (told X) (connector_body lib fuel typec caps i out)
        (fun _ => told (X ++ map (fun q => (q, i)) per_connector))
        (cut fuel total).
Proof.
  intros Hi. unfold connector_body.
  assert (Hn : forall n,
             initial_part
               (X ++ firstn n (map (fun q => (q, i)) per_connector))
               total).
  { intros n. now apply initial_part_firstn. }
  eapply hoare_bind;
    [apply conn_capabilities_block_told; exact (Hn 1%nat) | intros ?].
  eapply hoare_bind;
    [apply (pdos_block_told _ _ _ false PdoType_Source);
     [rewrite <- ?app_assoc; exact (Hn 2%nat) | discriminate]
    | intros out1].
  eapply hoare_bind;
    [apply (pdos_block_told _ _ _ false PdoType_Sink);
     [rewrite <- ?app_assoc; exact (Hn 3%nat) | discriminate]
    | intros out2].
  eapply hoare_bind;
    [apply cable_properties_block_told;
     rewrite <- ?app_assoc; exact (Hn 4%nat) | intros ?].
  eapply hoare_bind;
    [apply (alternate_modes_block_told _ _
              GetAlternateModesRecipient_Connector);
     rewrite <- ?app_assoc; exact (Hn 5%nat) | intros m1].
  eapply hoare_bind;
    [apply (alternate_modes_block_told _ _
              GetAlternateModesRecipient_SopPrime);
     rewrite <- ?app_assoc; exact (Hn 6%nat) | intros m2].
  eapply hoare_bind;
    [apply (pd_message_block_told _ _ _ PdMessageRecipient_SopPrime);
     rewrite <- ?app_assoc; exact (Hn 7%nat) | intros ?].
  eapply hoare_bind;
    [apply (alternate_modes_block_told _ _
              GetAlternateModesRecipient_Sop);
     rewrite <- ?app_assoc; exact (Hn 8%nat) | intros m3].
  eapply hoare_bind;
    [apply (pd_message_block_told _ _ _ PdMessageRecipient_Sop);
     rewrite <- ?app_assoc; exact (Hn 9%nat) | intros ?].
  eapply hoare_bind;
    [apply (pdos_block_told _ _ _ true PdoType_Source);
     [rewrite <- ?app_assoc; exact (Hn 10%nat) | reflexivity]
    | intros out3].
  eapply hoare_bind;
    [apply (pdos_block_told _ _ _ true PdoType_Sink);
     [rewrite <- ?app_assoc; exact (Hn 11%nat) | reflexivity]
    | intros out4].
  apply hoare_ret. intros tr H.
  rewrite <- !app_assoc in H. exact H.
Qed.

Lemma connector_loop_told typec caps n :
  forall X i out,
  initial_part (X ++ all_queries n i) total ->
  hoare (told X) (connector_loop lib fuel typec caps n i out)
        (fun _ => told (X ++ all_queries n i))
        (cut fuel total).
Proof.
  induction n as [|n IH]; intros X i out Hi;
    cbn [connector_loop all_queries] in *.
  - apply hoare_ret. intros tr H. now rewrite app_nil_r.
  - rewrite app_assoc in Hi.
    eapply hoare_bind;
      [apply connector_body_told;
       exact (initial_part_shorter _ _ _ Hi) | intros out'].
    intros c Hc. specialize (IH _ (i + 1) out' Hi c Hc).
    destruct (connector_loop lib fuel typec caps n (i + 1) out' c);
      [|exact IH].
    now rewrite <- app_assoc in IH.
Qed.

End Told.

(** Every run either goes through, with passed events only, or is cut
    after passed events by the last events of its outcome. *)
Lemma run_is_told_or_cut {L : Type} (lib : LibTypec L) (fuel : nat)
    (backend : Z) (s : L) :
  exists total,
    match snd (run lib fuel backend s) with
    | Completed => told total (fst (run lib fuel backend s))
    | o => cut fuel total o (fst (run lib fuel backend s))
    end
    /\ forall e1 h caps rest,
         fst (run lib fuel backend s)
         = e1 :: Ev_get_capabilities h 0 (Some caps) :: rest ->
         total = all_queries (Z.to_nat (num_connectors caps)) 0.
Proof.
  unfold run.
  set (m := c_example_lstypec lib fuel backend (mkConfig s [])).
  set (sized := fun (total : list (query * Z)) (tr : trace) =>
         forall e1 h caps rest,
           tr = e1 :: Ev_get_capabilities h 0 (Some caps) :: rest ->
           total = all_queries (Z.to_nat (num_connectors caps)) 0).
  assert (H : match m with
              | Go _ c => exists total,
                  told total (log c) /\ sized total (log c)
              | Halt o c => exists total,
                  match o with
                  | Completed => told total (log c)
                  | _ => cut fuel total o (log c)
                  end /\ sized total (log c)
              end).
  2:{ destruct m as [a c|o c]; destruct H as (total & H1 & H2);
        exists total; cbn [fst snd]; (split; [|exact H2]);
        [exact H1 | destruct o; exact H1]. }
  assert (Hnil : told [] []) by (split; [constructor | reflexivity]).
  subst m. unfold c_example_lstypec.
  unfold read, fprintf_stderr, return_.
  unfold bind at 1. unfold call_new. cbn [lib_state log app].
  destruct (libtypec_rs_new lib s (backend_type backend))
    as [s1 [r0 [typec|]]].
  2:{ hnf. exists []. split; [|intros e1 h caps rest Heq; discriminate Heq].
      apply (cut_segment fuel [] [] [] _ [] Undefined [] _ Hnil eq_refl);
        [constructor | | reflexivity | now exists []].
      eexists. split; reflexivity. }
  unfold bind at 1. unfold ret at 1.
  destruct (typec =? NULL) eqn:Hh;
    [apply Z.eqb_eq in Hh; subst typec | apply Z.eqb_neq in Hh].
  { hnf. exists []. split; [|intros e1 h caps rest Heq; discriminate Heq].
    apply (cut_segment fuel [] [] [] _ [] _ [] _ Hnil eq_refl);
      [constructor | | reflexivity | now exists []].
    eexists _, _. split; [reflexivity|]. split; [reflexivity|].
    split; [reflexivity|]. right. eauto. }
  unfold bind at 1. unfold call_get_capabilities. cbn [lib_state log app].
  destruct (libtypec_rs_get_capabilities lib s1 typec) as [s2 [r st]].
  destruct (r =? 0) eqn:Hr; cbn [negb];
    [apply Z.eqb_eq in Hr; subst r | apply Z.eqb_neq in Hr].
  2:{ hnf. exists []. split;
        [|intros e1 h caps rest Heq; injection Heq as _ _ Hz _;
          congruence].
      apply (cut_segment fuel [] [] [] _ [] _
               [Ev_new (backend_type backend) r0 (Some typec)] _
               Hnil eq_refl);
        [repeat constructor; cbn; eauto | | reflexivity | now exists []].
      eexists _, _. split; [reflexivity|]. split; [reflexivity|].
      split; [reflexivity|]. left. exact Hr. }
  destruct st as [caps|].
  2:{ hnf. exists []. split;
        [|intros e1 h caps rest Heq; discriminate Heq].
      apply (cut_segment fuel [] [] [] _ [] Undefined
               [Ev_new (backend_type backend) r0 (Some typec)] _
               Hnil eq_refl);
        [repeat constructor; cbn; eauto | | reflexivity | now exists []].
      eexists. split; reflexivity. }
  unfold bind at 1. unfold ret at 1.
  set (hd := [Ev_new (backend_type backend) r0 (Some typec);
              Ev_get_capabilities typec 0 (Some caps)]).
  set (total := all_queries (Z.to_nat (num_connectors caps)) 0).
  assert (Hhd : told [] hd).
  { split; [|reflexivity]. repeat constructor; cbn; eauto. discriminate. }
  assert (Hlog : forall post, sized total (hd ++ post)).
  { intros post e1 h caps' rest [= _ _ <- _]. reflexivity. }
  pose proof (connector_loop_told lib fuel total typec caps
                (Z.to_nat (num_connectors caps)) [] 0 (Triple NULL 0 0)
                (ex_intro _ [] (eq_sym (app_nil_r _)))
                (mkConfig s2 hd) Hhd) as H.
  pose proof (connector_loop_form lib hd typec caps fuel
                (Z.to_nat (num_connectors caps)) [] 0 (Triple NULL 0 0)
                (mkConfig s2 hd)) as F.
  unfold bind at 1.
  destruct (connector_loop lib fuel typec caps
              (Z.to_nat (num_connectors caps)) 0 (Triple NULL 0 0)
              (mkConfig s2 hd)) as [out c'|o c'].
  - destruct F as (post & Hpost & _).
    { exists []. rewrite app_nil_r. repeat split; constructor. }
    unfold bind, call_destroy, ret. cbn [log]. exists total. split.
    + cbn [app] in H.
      rewrite <- (app_nil_r total).
      apply (told_segment _ _ _ _ H); [|reflexivity].
      repeat constructor.
    + rewrite Hpost, <- app_assoc. apply Hlog.
  - destruct F as (post & Hpost & _ & Ho & _).
    { exists []. rewrite app_nil_r. repeat split; constructor. }
    exists total. split.
    + destruct o; [congruence | exact H ..].
    + rewrite Hpost. apply Hlog.
Qed.


(** A run that completes has passed events only; any other run has
    passed events up to the last events of its outcome. *)
Lemma run_passed_then_last {L : Type} (lib : LibTypec L) (fuel : nat)
    (backend : Z) (s : L) :
  (snd (run lib fuel backend s) = Completed
   /\ Forall passed (fst (run lib fuel backend s)))
  \/ (exists pre tail,
        fst (run lib fuel backend s) = pre ++ tail
        /\ Forall passed pre
        /\ last_events fuel (snd (run lib fuel backend s)) tail).
Proof.
  destruct (run_is_told_or_cut lib fuel backend s) as (total & H & _).
  destruct (snd (run lib fuel backend s)) as [|r| | |];
    [left; split; [reflexivity | exact (proj1 H)] | right ..];
    destruct H as ((pre & tail & H) & _); exists pre, tail; exact H.
Qed.

(** The capabilities are asked right after the creation and nowhere
    else. *)
Lemma capabilities_come_second {L : Type} (lib : LibTypec L)
    (fuel : nat) (backend : Z) (s : L) h r st :
  In (Ev_get_capabilities h r st) (fst (run lib fuel backend s)) ->
  exists e1 rest,
    fst (run lib fuel backend s)
    = e1 :: Ev_get_capabilities h r st :: rest.
Proof.
  assert (Hpost : forall typec caps post,
             Forall (inner typec caps) post ->
             ~ In (Ev_get_capabilities h r st) post).
  { intros typec caps post HF Hi. rewrite Forall_forall in HF.
    exact (HF _ Hi). }
  destruct (run_has_form lib fuel backend s)
    as [r1|r1 msg|r0 typec r1 st1 msg _ _|r0 typec _
        |r0 typec caps post o _ HF _ _|r0 typec caps post _ HF _ _];
    cbn [app]; intros Hin.
  - destruct Hin as [Hin|[]]. discriminate.
  - destruct Hin as [Hin|[Hin|[]]]; discriminate.
  - destruct Hin as [Hin|[Hin|[Hin|[]]]]; try discriminate.
    rewrite <- Hin. eauto.
  - destruct Hin as [Hin|[Hin|[]]]; try discriminate.
    rewrite <- Hin. eauto.
  - destruct Hin as [Hin|[Hin|Hin]]; try discriminate.
    + rewrite <- Hin. eauto.
    + now destruct (Hpost _ _ _ HF Hin).
  - destruct Hin as [Hin|[Hin|Hin]]; try discriminate.
    + rewrite <- Hin. eauto.
    + apply in_app_iff in Hin. destruct Hin as [Hin|[Hin|[]]].
      * now destruct (Hpost _ _ _ HF Hin).
      * discriminate.
Qed.

(** The events that can be among the last events of a run that does not
    complete: a call with a result, a message, or the print of an
    alternate mode. *)
Lemma last_events_kind fuel o tail e :
  last_events fuel o tail -> In e tail ->
  ret_of e <> None \/ is_stderr e = true
  \/ exists p i, e = Ev_UcsiAlternateMode_printf p i.
Proof.
  destruct o as [|r| | |]; cbn [last_events].
  - contradiction.
  - intros (e' & msg & -> & _ & Hr & _) [<-|[<-|[]]].
    + left. congruence.
    + right. left. reflexivity.
  - intros (e' & -> & Hl) [<-|[]]. left.
    destruct e'; cbn in Hl; try contradiction. discriminate.
  - intros (e' & -> & Hl) [<-|[]]. left.
    destruct e'; cbn in Hl; try contradiction; discriminate.
  - intros (e' & m & l & -> & Hl) [<-|Hin].
    + left. destruct e'; cbn in Hl; try contradiction. discriminate.
    + right. right. apply in_map_iff in Hin.
      destruct Hin as (j & <- & _). eauto.
Qed.

(* ------------------------------------------------------------------ *)
(** ** Messages, and runs that do not return *)


(** X8. An [assert] fails only right after a PDO query that answered 0
    and left no array other than [NULL] in [out_pdos]: that query is
    the last event of the run, and every event before it is one the
    client went on from. *)
Theorem assert_fails_on_a_null_pdo_array
    {L : Type} (lib : LibTypec L) (fuel : nat) (backend : Z) (s : L) :
  snd (run lib fuel backend s) = AssertFailed ->
  exists pre e,
    fst (run lib fuel backend s) = pre ++ [e]
    /\ leaves_null e
    /\ Forall passed pre.
Proof.
  intros Ho.
  destruct (run_passed_then_last lib fuel backend s)
    as [(Hc & _)|(pre & tail & Htr & HF & Hl)]; [congruence|].
  rewrite Ho in Hl. destruct Hl as (e & -> & Hl).
  exists pre, e. repeat split; assumption.
Qed.


(** X10. A print loop is still running when its budget is spent only
    in an alternate-mode block: the run ends with a
    [libtypec_rs_get_alternate_modes] call that answered 0 with a
    length above [UINT_MAX] or above the budget, followed by prints of
    that array and nothing else. *)
Theorem only_an_alternate_mode_loop_runs_on
    {L : Type} (lib : LibTypec L) (fuel : nat) (backend : Z) (s : L) :
  snd (run lib fuel backend s) = OutOfFuel ->
  exists pre e m l,
    fst (run lib fuel backend s)
    = pre ++ e :: map (Ev_UcsiAlternateMode_printf (t_ptr m)) l
    /\ outruns fuel e m
    /\ Forall passed pre.
Proof.
  intros Ho.
  destruct (run_passed_then_last lib fuel backend s)
    as [(Hc & _)|(pre & tail & Htr & HF & Hl)]; [congruence|].
  rewrite Ho in Hl. destruct Hl as (e & m & l & -> & Hl).
  exists pre, e, m, l. repeat split; assumption.
Qed.

(** X11. The variables of the partner PDO queries are reset before the
    call (lines 199-201 and 220-222): when such a query answers 0 and
    stores no array other than [NULL], the [assert] after it fails,
    whatever an earlier query left behind; the query is the last event
    of the run. *)
Theorem partner_query_never_sees_an_earlier_array
    {L : Type} (lib : LibTypec L) (fuel : nat) (backend : Z) (s : L)
    (h conn offset num : Z) (ty : PdoType)
    (src : PdoSourceCapabilitiesType) (v : Z) (stored : option triple) :
  In (Ev_get_pdos h conn true offset num ty src v 0 stored)
     (fst (run lib fuel backend s)) ->
  (forall t, stored = Some t -> t_ptr t = NULL) ->
  snd (run lib fuel backend s) = AssertFailed
  /\ exists pre,
       fst (run lib fuel backend s)
       = pre ++ [Ev_get_pdos h conn true offset num ty src v 0 stored].
Proof.
  intros Hin Hnull.
  assert (Hnp : ~ passed
                  (Ev_get_pdos h conn true offset num ty src v 0 stored)).
  { cbn. unfold ENOTSUP. intros [Hr|(_ & Ht)]; [discriminate|].
    destruct (Ht eq_refl) as (t & Hs & Hp). now apply Hp, Hnull. }
  destruct (run_passed_then_last lib fuel backend s)
    as [(_ & HF)|(pre & tail & Htr & HF & Hl)].
  { rewrite Forall_forall in HF. now destruct (Hnp (HF _ Hin)). }
  rewrite Htr in Hin |- *. apply in_app_iff in Hin.
  destruct Hin as [Hin|Hin].
  { rewrite Forall_forall in HF. now destruct (Hnp (HF _ Hin)). }
  destruct (snd (run lib fuel backend s)) as [|r| | |];
    cbn [last_events] in Hl.
  - contradiction.
  - destruct Hl as (e & msg' & -> & _ & _ & [Hf|(b & r' & ->)]);
      destruct Hin as [Hin|[Hin|[]]]; try discriminate.
    subst e. cbn in Hf. lia.
  - destruct Hl as (e & -> & Hl). destruct Hin as [->|[]].
    split; [reflexivity | now exists pre].
  - destruct Hl as (e & -> & Hl). destruct Hin as [->|[]].
    cbn in Hl. contradiction.
  - destruct Hl as (e & m & l & -> & Hl). destruct Hin as [->|Hin].
    + cbn in Hl. contradiction.
    + apply in_map_iff in Hin. destruct Hin as (j & Hj & _).
      discriminate.
Qed.

(** X12. However a run ends, the per-connector queries it has made are
    an initial part of the queries of a complete run: the eleven
    queries of the loop body in source order for connector 0, then for
    connector 1, and so on; no query is skipped, repeated or made out
    of order. *)
Theorem queries_are_an_initial_part_of_the_full_list
    {L : Type} (lib : LibTypec L) (fuel : nat) (backend : Z) (s : L)
    (h : ptr) (caps : UcsiCapability) :
  In (Ev_get_capabilities h 0 (Some caps))
     (fst (run lib fuel backend s)) ->
  initial_part (queries (fst (run lib fuel backend s)))
    (all_queries (Z.to_nat (num_connectors caps)) 0).
Proof.
  intros Hin. apply capabilities_come_second in Hin.
  destruct Hin as (e1 & rest & Htr).
  destruct (run_is_told_or_cut lib fuel backend s) as (total & H & Ht).
  rewrite <- (Ht _ _ _ _ Htr).
  destruct (snd (run lib fuel backend s)) as [|r| | |];
    [destruct H as [_ ->]; exists []; now rewrite app_nil_r
    | exact (proj2 H) ..].
Qed.

(** X13. A PDO array is printed and destroyed behind the [assert] only:
    no run, whatever the library answers, hands [NULL] to
    [PdPdo_printf] or to [libtypec_rs_destroy_pdos]. *)
Theorem pdo_array_in_use_is_never_null
    {L : Type} (lib : LibTypec L) (fuel : nat) (backend : Z) (s : L)
    (e : event) :
  In e (fst (run lib fuel backend s)) ->
  (forall t, released e = Some (PdoArray, t) -> t_ptr t <> NULL)
  /\ (forall p i, touched e = Some (PdoArray, p, i) -> p <> NULL).
Proof.
  intros Hin.
  assert (Hp : passed e ->
               (forall t, released e = Some (PdoArray, t) ->
                          t_ptr t <> NULL)
               /\ (forall p i, touched e = Some (PdoArray, p, i) ->
                               p <> NULL)).
  { destruct e; cbn; intros H; split; intros; try discriminate.
    - match goal with H' : Some _ = Some _ |- _ =>
        injection H' as <- end. exact H.
    - match goal with H' : Some _ = Some _ |- _ =>
        injection H' as <- <- end. exact H. }
  destruct (run_passed_then_last lib fuel backend s)
    as [(_ & HF)|(pre & tail & Htr & HF & Hl)].
  { rewrite Forall_forall in HF. exact (Hp (HF _ Hin)). }
  rewrite Htr in Hin. apply in_app_iff in Hin.
  destruct Hin as [Hin|Hin].
  { rewrite Forall_forall in HF. exact (Hp (HF _ Hin)). }
  destruct (last_events_kind _ _ _ _ Hl Hin) as [Hk|[Hk|(p & i & ->)]].
  - destruct e; cbn in Hk; try congruence; split; intros; discriminate.
  - destruct e; try discriminate. split; intros; discriminate.
  - split; intros; discriminate.
Qed.

(* ------------------------------------------------------------------ *)
(** ** Reading an array in order, block by block *)

Lemma reads_app h1 t1 h2 t2 h3 :
  reads h1 t1 h2 -> reads h2 t2 h3 -> reads h1 (t1 ++ t2) h3.
Proof.
  revert h1; induction t1 as [|e t1 IH]; intros h1; cbn.
  - now intros ->.
  - intros (h & Hs & Ht) H. exists h. split; [assumption|]. now apply IH.
Qed.

Lemma reads_one h e h' : read_step h e h' -> reads h [e] h'.
Proof. intros H. exists h'. now split. Qed.

(** The prints of [n] elements from index [i] on, inside the array. *)
Lemma reads_printers k t n i :
  0 <= i ->
  i + Z.of_nat n <= Z.max i (t_len t) ->
  reads (Some (k, t, i))
        (map (printer k (t_ptr t)) (indices n i))
        (Some (k, t, i + Z.of_nat n)).
Proof.
  revert i; induction n as [|n IH]; intros i Hi Hb; cbn [indices map reads].
  - now rewrite Z.add_0_r.
  - exists (Some (k, t, i + 1)). split.
    + apply read_next. lia.
    + replace (i + Z.of_nat (S n)) with (i + 1 + Z.of_nat n) by lia.
      apply IH; lia.
Qed.

(** A whole array: the prints of its elements, then its release. *)
Lemma reads_whole_array k t d :
  released d = Some (k, t) ->
  reads (Some (k, t, 0))
        (map (printer k (t_ptr t)) (indices (Z.to_nat (t_len t)) 0) ++ [d])
        None.
Proof.
  intros Hd. eapply reads_app.
  - apply reads_printers; lia.
  - apply reads_one. apply read_release; [assumption | lia].
Qed.

Lemma in_order_segment tr seg :
  in_order tr ->
  (Forall stores_on_success seg -> reads None seg None) ->
  in_order (tr ++ seg).
Proof.
  intros Hk Hs HF. apply Forall_app in HF as [HF1 HF2].
  eapply reads_app; [apply Hk, HF1 | apply Hs, HF2].
Qed.

Lemma in_order_stop o tr seg :
  in_order tr ->
  Forall (fun e => released e = None) seg ->
  in_order_so_far o (tr ++ seg).
Proof.
  intros Hk Hs HF. apply Forall_app in HF as [HF1 _].
  exists tr, seg. repeat split; [apply Hk, HF1 | assumption].
Qed.

Lemma no_release_UcsiAlternateMode_printf p l :
  Forall (fun e => released e = None)
         (map (Ev_UcsiAlternateMode_printf p) l).
Proof. apply Forall_forall. intros e H. apply in_map_iff in H.
  destruct H as (j & <- & _). reflexivity. Qed.

(** A call that is no variable-length call, or a message. *)
Ltac plain_read :=
  apply read_other; reflexivity.

(** The block goes on after one plain call. *)
Ltac reads_on Hk :=
  apply in_order_segment; [exact Hk|]; intros _;
  apply reads_one; plain_read.

(** The block stops after events that release nothing. *)
Ltac reads_stop Hk :=
  apply in_order_stop; [exact Hk|];
  repeat (apply Forall_cons; [reflexivity|]);
  first [ apply Forall_nil | apply no_release_UcsiAlternateMode_printf ].

Section InOrder.

Context {L : Type} (lib : LibTypec L).

Lemma conn_capabilities_block_reads typec i :
  hoare in_order (conn_capabilities_block lib typec i)
        (fun _ => in_order) in_order_so_far.
Proof.
  intros c Hk. open_block.
  destruct (libtypec_rs_get_conn_capabilities lib (lib_state c) typec i)
    as [s r].
  destruct (negb (r =? 0)); to_segment.
  - reads_stop Hk.
  - reads_on Hk.
Qed.

Lemma cable_properties_block_reads typec i :
  hoare in_order (cable_properties_block lib typec i)
        (fun _ => in_order) in_order_so_far.
Proof.
  intros c Hk. open_block.
  destruct (libtypec_rs_get_cable_properties lib (lib_state c) typec i)
    as [s r].
  destruct (r =? 0); [|destruct (negb (r =? - ENOTSUP))]; to_segment.
  - reads_on Hk.
  - reads_stop Hk.
  - reads_on Hk.
Qed.

Lemma pd_message_block_reads typec i recipient msg :
  hoare in_order (pd_message_block lib typec i recipient msg)
        (fun _ => in_order) in_order_so_far.
Proof.
  intros c Hk. open_block.
  destruct (libtypec_rs_get_pd_message lib (lib_state c) typec i recipient
              PdMessageResponseType_DiscoverIdentity) as [s r].
  destruct (r =? 0); [|destruct (negb (r =? - ENOTSUP))]; to_segment.
  - reads_on Hk.
  - reads_stop Hk.
  - reads_on Hk.
Qed.

Lemma pdos_block_reads typec i partner ty v msg out :
  hoare in_order (pdos_block lib typec i partner ty v msg out)
        (fun _ => in_order) in_order_so_far.
Proof.
  intros c Hk. open_block.
  destruct (libtypec_rs_get_pdos lib (lib_state c) typec i partner 0 0 ty
              PdoSourceCapabilitiesType_CurrentSupportedSourceCapabilities
              v) as [s [r st]].
  destruct (r =? 0) eqn:Hr;
    [apply Z.eqb_eq in Hr; subst r | apply Z.eqb_neq in Hr].
  - destruct (t_ptr _ =? NULL) eqn:Hp; cbn [negb]; cbv beta iota.
    + to_segment. reads_stop Hk.
    + rewrite print_pdos_log. cbv beta iota. to_segment.
      apply in_order_segment; [exact Hk|]. intros HF.
      apply Forall_cons_iff in HF as [He _].
      destruct st as [t|]; [|now destruct (He eq_refl)].
      exists (Some (PdoArray, t, 0)). split.
      * exact (read_call _ (eq_refl : is_variable_length_call
                  (Ev_get_pdos typec i partner 0 0 ty
              PdoSourceCapabilitiesType_CurrentSupportedSourceCapabilities
                     v 0 (Some t)) = true)).
      * exact (reads_whole_array PdoArray t (Ev_destroy_pdos t) eq_refl).
  - assert (Hg : forall st', granted
                   (Ev_get_pdos typec i partner 0 0 ty
              PdoSourceCapabilitiesType_CurrentSupportedSourceCapabilities
                      v r st') = None).
    { intros [t|]; cbn; [|reflexivity].
      apply Z.eqb_neq in Hr. now rewrite Hr. }
    pose proof (read_call _ (eq_refl : is_variable_length_call
                  (Ev_get_pdos typec i partner 0 0 ty
              PdoSourceCapabilitiesType_CurrentSupportedSourceCapabilities
                     v r st) = true))
      as Hstep.
    rewrite Hg in Hstep. cbn [start_reading] in Hstep.
    destruct (negb (r =? - ENOTSUP)); to_segment.
    + reads_stop Hk.
    + apply in_order_segment; [exact Hk|]. intros _.
      apply reads_one. exact Hstep.
Qed.

Lemma alternate_modes_block_reads fuel typec recipient i msg modes :
  hoare in_order
        (alternate_modes_block lib fuel typec recipient i msg modes)
        (fun _ => in_order) in_order_so_far.
Proof.
  intros c Hk. open_block.
  destruct (libtypec_rs_get_alternate_modes lib (lib_state c) typec
              recipient i) as [s [r st]].
  destruct (r =? 0) eqn:Hr;
    [apply Z.eqb_eq in Hr; subst r | apply Z.eqb_neq in Hr].
  - destruct (after_call st modes) as [m|] eqn:Hm; cbv beta iota.
    + rewrite print_alt_modes_log. cbn [lib_state log].
      destruct (alt_mode_visits fuel 0 (t_len m)) as [l done] eqn:Hv.
      destruct done; cbv beta iota; to_segment.
      * apply alt_mode_visits_leaves in Hv as [_ ->].
        apply in_order_segment; [exact Hk|]. intros HF.
        apply Forall_cons_iff in HF as [He _].
        destruct st as [t|]; [|now destruct (He eq_refl)].
        cbn in Hm. injection Hm as ->.
        exists (Some (AltModeArray, m, 0)). split.
        -- exact (read_call _ (eq_refl : is_variable_length_call
                    (Ev_get_alternate_modes typec recipient i 0 (Some m))
                    = true)).
        -- exact (reads_whole_array AltModeArray m
                    (Ev_destroy_alternate_modes m) eq_refl).
      * reads_stop Hk.
    + to_segment. reads_stop Hk.
  - assert (Hg : forall st', granted
                   (Ev_get_alternate_modes typec recipient i r st')
                 = None).
    { intros [t|]; cbn; [|reflexivity].
      apply Z.eqb_neq in Hr. now rewrite Hr. }
    pose proof (read_call _ (eq_refl : is_variable_length_call
                  (Ev_get_alternate_modes typec recipient i r st) = true))
      as Hstep.
    rewrite Hg in Hstep. cbn [start_reading] in Hstep.
    destruct (negb (r =? - ENOTSUP)); to_segment.
    + reads_stop Hk.
    + apply in_order_segment; [exact Hk|]. intros _.
      apply reads_one. exact Hstep.
Qed.

Lemma connector_body_reads fuel typec caps i out :
  hoare in_order (connector_body lib fuel typec caps i out)
        (fun _ => in_order) in_order_so_far.
Proof.
  unfold connector_body.
  eapply hoare_bind; [apply conn_capabilities_block_reads | intros ?].
  eapply hoare_bind; [apply pdos_block_reads | intros out1].
  eapply hoare_bind; [apply pdos_block_reads | intros out2].
  eapply hoare_bind; [apply cable_properties_block_reads | intros ?].
  eapply hoare_bind; [apply alternate_modes_block_reads | intros m1].
  eapply hoare_bind; [apply alternate_modes_block_reads | intros m2].
  eapply hoare_bind; [apply pd_message_block_reads | intros ?].
  eapply hoare_bind; [apply alternate_modes_block_reads | intros m3].
  eapply hoare_bind; [apply pd_message_block_reads | intros ?].
  eapply hoare_bind; [apply pdos_block_reads | intros out3].
  eapply hoare_bind; [apply pdos_block_reads | intros out4].
  apply hoare_ret. auto.
Qed.

Lemma connector_loop_reads fuel typec caps n :
  forall i out,
  hoare in_order (connector_loop lib fuel typec caps n i out)
        (fun _ => in_order) in_order_so_far.
Proof.
  induction n as [|n IH]; intros i out; cbn [connector_loop].
  - apply hoare_ret. auto.
  - eapply hoare_bind; [apply connector_body_reads | intros out'].
    apply IH.
Qed.

End InOrder.

(** In every run, up to some point each array was read in order and
    released, and no destroyer is called after that point. *)
Lemma run_reads_in_order {L : Type} (lib : LibTypec L) (fuel : nat)
    (backend : Z) (s : L) :
  in_order_so_far (snd (run lib fuel backend s))
                  (fst (run lib fuel backend s)).
Proof.
  unfold run.
  set (m := c_example_lstypec lib fuel backend (mkConfig s [])).
  assert (H : match m with
              | Go _ c => in_order_so_far Completed (log c)
              | Halt o c => in_order_so_far o (log c)
              end); [|destruct m; exact H].
  assert (Hnil : in_order []) by (intros _; reflexivity).
  subst m. unfold c_example_lstypec.
  unfold read, fprintf_stderr, return_.
  unfold bind at 1. unfold call_new. cbn [lib_state log app].
  destruct (libtypec_rs_new lib s (backend_type backend))
    as [s1 [r0 [typec|]]].
  2:{ apply (in_order_stop Undefined [] _ Hnil). repeat constructor. }
  unfold bind at 1. unfold ret at 1.
  destruct (typec =? NULL).
  { apply (in_order_stop _ [] _ Hnil). repeat constructor. }
  unfold bind at 1. unfold call_get_capabilities. cbn [lib_state log app].
  destruct (libtypec_rs_get_capabilities lib s1 typec) as [s2 [r st]].
  destruct (r =? 0) eqn:Hr; cbn [negb].
  2:{ apply (in_order_stop _ [] _ Hnil). repeat constructor. }
  destruct st as [caps|].
  2:{ apply (in_order_stop Undefined [] _ Hnil). repeat constructor. }
  unfold bind at 1. unfold ret at 1.
  set (hd := [Ev_new (backend_type backend) r0 (Some typec);
              Ev_get_capabilities typec r (Some caps)]).
  assert (Hhd : in_order hd).
  { intros _. exists None. split; [plain_read|].
    apply reads_one. plain_read. }
  pose proof (connector_loop_reads lib fuel typec caps
                (Z.to_nat (num_connectors caps)) 0 (Triple NULL 0 0)
                (mkConfig s2 hd) Hhd) as H.
  unfold bind at 1.
  destruct (connector_loop lib fuel typec caps
              (Z.to_nat (num_connectors caps)) 0 (Triple NULL 0 0)
              (mkConfig s2 hd)) as [out c'|o c']; [|exact H].
  unfold bind, call_destroy, ret. cbn [log].
  apply in_order_stop; [exact H | repeat constructor].
Qed.

(** What comes before a release in a log read in order: the granting
    call and the prints of every element, first to last. *)
Lemma reads_before_release d k t post h' :
  released d = Some (k, t) ->
  forall pre h0,
  reads h0 (pre ++ d :: post) h' ->
  (exists pre' g,
     pre = pre' ++ g :: map (printer k (t_ptr t))
                            (indices (Z.to_nat (t_len t)) 0)
     /\ granted g = Some (k, t))
  \/ (exists i,
        h0 = Some (k, t, i)
        /\ pre = map (printer k (t_ptr t))
                     (indices (Z.to_nat (t_len t - i)) i)).
Proof.
  intros Hd. induction pre as [|e pre IH]; intros h0; cbn [app reads].
  - intros (h1 & Hs & _). inversion Hs; subst.
    + destruct d; discriminate.
    + destruct k0; discriminate.
    + assert (Hk : k0 = k /\ t0 = t) by (split; congruence).
      destruct Hk as [-> ->].
      right. exists (Z.max 0 (t_len t)).
      replace (Z.to_nat (t_len t - Z.max 0 (t_len t))) with O by lia.
      split; reflexivity.
    + congruence.
  - intros (h1 & Hs & Hr).
    destruct (IH _ Hr) as [(pre' & g & -> & Hg)|(i & -> & ->)].
    + left. exists (e :: pre'), g. split; [reflexivity | assumption].
    + inversion Hs; subst.
      * left. exists [], e. split; [|].
        -- destruct (granted e) as [[k1 t1]|]; [|discriminate].
           cbn in *. match goal with
           | H0 : Some _ = Some _ |- _ => injection H0 as -> -> <-
           end. now rewrite Z.sub_0_r.
        -- destruct (granted e) as [[k1 t1]|]; [|discriminate].
           cbn in *. match goal with
           | H0 : Some _ = Some _ |- _ => now injection H0 as -> -> _
           end.
      * right. exists i0. split; [reflexivity|].
        replace (Z.to_nat (t_len t - i0))
          with (S (Z.to_nat (t_len t - (i0 + 1)))) by lia.
        reflexivity.
Qed.

(** X14. Under the presupposition of the ownership rule (a
    variable-length call that answers 0 has stored its triple), every
    destroyer call of a run comes right after the prints of the
    elements 0, 1, ..., [len - 1] of the array it releases, each printed
    once and in this order, and these come right after the call that
    granted the array. *)
Theorem array_is_printed_first_to_last_then_released
    {L : Type} (lib : LibTypec L) (fuel : nat) (backend : Z) (s : L)
    (pre post : trace) (d : event) (k : array_kind) (t : triple) :
  Forall stores_on_success (fst (run lib fuel backend s)) ->
  fst (run lib fuel backend s) = pre ++ d :: post ->
  released d = Some (k, t) ->
  exists pre' g,
    pre = pre' ++ g :: map (printer k (t_ptr t))
                           (indices (Z.to_nat (t_len t)) 0)
    /\ granted g = Some (k, t).
Proof.
  intros HF Htr Hd.
  destruct (run_reads_in_order lib fuel backend s HF)
    as (pre1 & tail & Hsplit & Hreads & Htail).
  rewrite Htr in Hsplit. apply app_eq_app in Hsplit.
  destruct Hsplit as (l & [(-> & ->)|(-> & Hl)]).
  - rewrite Forall_forall in Htail.
    assert (Hin : In d (l ++ d :: post))
      by (apply in_or_app; right; now left).
    specialize (Htail d Hin). congruence.
  - destruct l as [|e l].
    + cbn in Hl. subst tail. apply Forall_cons_iff in Htail as [Hx _].
      congruence.
    + injection Hl as <- ->.
      destruct (reads_before_release d k t _ None Hd _ _ Hreads)
        as [H|(i & Hi & _)]; [exact H | discriminate Hi].
Qed.

(* ------------------------------------------------------------------ *)
(** ** A larger budget *)


Section Budget.

Context {L : Type} (lib : LibTypec L).








End Budget.


(* ------------------------------------------------------------------ *)
(** ** The further properties on concrete libraries *)

(** Finds a concrete event in a concrete log. *)
Ltac event_is_there :=
  match goal with
  | |- In _ ?l =>
      let l' := fresh "l" in
      set (l' := l); vm_compute in l'; subst l'
  end;
  repeat first [ left; reflexivity | right ].

Example null_handle_run :
  run null_handle_lib 4 0 tt
  = ([Ev_new 1 0 (Some NULL);
      Ev_stderr "Failed to create TypecRs instance\n"],
     EarlyReturn 0).
Proof. reflexivity. Qed.

Example silent_partner_run :
  snd (run silent_partner_lib 4 0 tt) = AssertFailed
  /\ List.length (fst (run silent_partner_lib 4 0 tt)) = 19%nat.
Proof. vm_compute. split; reflexivity. Qed.

Example cable_error_run :
  snd (run cable_error_lib 4 0 tt) = EarlyReturn (-5)
  /\ queries (fst (run cable_error_lib 4 0 tt))
     = firstn 6 (all_queries 2 0).
Proof. vm_compute. split; reflexivity. Qed.

Lemma alt_mode_loop_prints_each_once_witness :
  print_alt_modes 5 0 16384 3 (mkConfig tt [])
  = Go tt (mkConfig tt [Ev_UcsiAlternateMode_printf 16384 0;
                        Ev_UcsiAlternateMode_printf 16384 1;
                        Ev_UcsiAlternateMode_printf 16384 2])
  /\ log (mkConfig tt [Ev_UcsiAlternateMode_printf 16384 0;
                       Ev_UcsiAlternateMode_printf 16384 1;
                       Ev_UcsiAlternateMode_printf 16384 2])
     = [] ++ map (Ev_UcsiAlternateMode_printf 16384)
                 (indices (Z.to_nat 3) 0).
Proof.
  assert (H : print_alt_modes 5 0 16384 3 (mkConfig tt [])
              = Go tt (mkConfig tt [Ev_UcsiAlternateMode_printf 16384 0;
                                    Ev_UcsiAlternateMode_printf 16384 1;
                                    Ev_UcsiAlternateMode_printf 16384 2]))
    by reflexivity.
  split; [exact H|].
  exact (proj2 (alt_mode_loop_prints_each_once 5 16384 3 _ _ H)).
Defined.

Lemma every_call_is_on_the_created_handle_witness :
  In (Ev_get_cable_properties 4096 1 (- ENOTSUP))
     (fst (run no_partner_lib 4 0 tt))
  /\ 4096 <> NULL.
Proof.
  assert (Hin : In (Ev_get_cable_properties 4096 1 (- ENOTSUP))
                   (fst (run no_partner_lib 4 0 tt)))
    by event_is_there.
  split; [exact Hin|].
  exact (proj1 (every_call_is_on_the_created_handle no_partner_lib 4 0 tt
                  _ 4096 Hin eq_refl)).
Defined.

Lemma null_handle_returns_the_result_of_new_witness :
  libtypec_rs_new null_handle_lib tt (backend_type 0)
  = (tt, (0, Some NULL))
  /\ run null_handle_lib 4 0 tt
     = ([Ev_new (backend_type 0) 0 (Some NULL);
         Ev_stderr "Failed to create TypecRs instance\n"],
        EarlyReturn 0).
Proof.
  split; [reflexivity|].
  exact (null_handle_returns_the_result_of_new null_handle_lib 4 0 tt tt
           0 eq_refl).
Defined.

Lemma stored_handle_is_used_whatever_the_result_witness :
  libtypec_rs_new odd_new_lib tt (backend_type 0) = (tt, (-5, Some 4096))
  /\ exists r' stored rest,
       fst (run odd_new_lib 4 0 tt)
       = Ev_new (backend_type 0) (-5) (Some 4096)
         :: Ev_get_capabilities 4096 r' stored :: rest
       /\ (r', stored)
          = snd (libtypec_rs_get_capabilities odd_new_lib tt 4096).
Proof.
  split; [reflexivity|].
  apply (stored_handle_is_used_whatever_the_result odd_new_lib 4 0 tt tt
           (-5) 4096 eq_refl).
  vm_compute. discriminate.
Defined.

Lemma no_connector_no_query_witness :
  num_connectors (mkCapability 0 768) <= 0
  /\ run no_connector_lib 4 0 tt
     = ([Ev_new (backend_type 0) 0 (Some 4096);
         Ev_get_capabilities 4096 0 (Some (mkCapability 0 768));
         Ev_destroy 4096],
        Completed).
Proof.
  split; [vm_compute; discriminate|].
  apply (no_connector_no_query no_connector_lib 4 0 tt tt tt 0 4096
           (mkCapability 0 768) eq_refl).
  - vm_compute. discriminate.
  - reflexivity.
  - vm_compute. discriminate.
Defined.


Lemma assert_fails_on_a_null_pdo_array_witness :
  snd (run null_array_lib 4 0 tt) = AssertFailed
  /\ exists pre e,
       fst (run null_array_lib 4 0 tt) = pre ++ [e] /\ leaves_null e.
Proof.
  assert (Ho : snd (run null_array_lib 4 0 tt) = AssertFailed)
    by reflexivity.
  split; [exact Ho|].
  destruct (assert_fails_on_a_null_pdo_array null_array_lib 4 0 tt Ho)
    as (pre & e & Htr & Hl & _).
  exists pre, e. split; assumption.
Defined.


Lemma only_an_alternate_mode_loop_runs_on_witness :
  snd (run many_modes_lib 4 0 tt) = OutOfFuel
  /\ exists pre e m l,
       fst (run many_modes_lib 4 0 tt)
       = pre ++ e :: map (Ev_UcsiAlternateMode_printf (t_ptr m)) l
       /\ outruns 4 e m.
Proof.
  assert (Ho : snd (run many_modes_lib 4 0 tt) = OutOfFuel)
    by (vm_compute; reflexivity).
  split; [exact Ho|].
  destruct (only_an_alternate_mode_loop_runs_on many_modes_lib 4 0 tt Ho)
    as (pre & e & m & l & Htr & Hl & _).
  exists pre, e, m, l. split; assumption.
Defined.

Lemma partner_query_never_sees_an_earlier_array_witness :
  In (Ev_get_pdos 4096 0 true 0 0 PdoType_Sink
        PdoSourceCapabilitiesType_CurrentSupportedSourceCapabilities
        768 0 None)
     (fst (run silent_partner_lib 4 0 tt))
  /\ snd (run silent_partner_lib 4 0 tt) = AssertFailed.
Proof.
  assert (Hin : In (Ev_get_pdos 4096 0 true 0 0 PdoType_Sink
          PdoSourceCapabilitiesType_CurrentSupportedSourceCapabilities
                      768 0 None)
                   (fst (run silent_partner_lib 4 0 tt)))
    by event_is_there.
  split; [exact Hin|].
  apply (partner_query_never_sees_an_earlier_array silent_partner_lib 4 0
           tt _ _ _ _ _ _ _ _ Hin).
  intros t Ht. discriminate Ht.
Defined.

Lemma queries_are_an_initial_part_of_the_full_list_witness :
  In (Ev_get_capabilities 4096 0 (Some (mkCapability 2 768)))
     (fst (run cable_error_lib 4 0 tt))
  /\ initial_part (queries (fst (run cable_error_lib 4 0 tt)))
       (all_queries (Z.to_nat (num_connectors (mkCapability 2 768))) 0).
Proof.
  assert (Hin : In (Ev_get_capabilities 4096 0
                      (Some (mkCapability 2 768)))
                   (fst (run cable_error_lib 4 0 tt)))
    by event_is_there.
  split; [exact Hin|].
  exact (queries_are_an_initial_part_of_the_full_list cable_error_lib 4 0
           tt 4096 (mkCapability 2 768) Hin).
Defined.

Lemma pdo_array_in_use_is_never_null_witness :
  In (Ev_destroy_pdos (Triple 8192 2 64))
     (fst (run no_partner_lib 4 0 tt))
  /\ t_ptr (Triple 8192 2 64) <> NULL.
Proof.
  assert (Hin : In (Ev_destroy_pdos (Triple 8192 2 64))
                   (fst (run no_partner_lib 4 0 tt)))
    by event_is_there.
  split; [exact Hin|].
  exact (proj1 (pdo_array_in_use_is_never_null no_partner_lib 4 0 tt _
                  Hin) _ eq_refl).
Defined.

Lemma array_is_printed_first_to_last_then_released_witness :
  Forall stores_on_success (fst (run no_partner_lib 4 0 tt))
  /\ fst (run no_partner_lib 4 0 tt)
     = firstn 6 (fst (run no_partner_lib 4 0 tt))
       ++ Ev_destroy_pdos (Triple 8192 2 64)
       :: skipn 7 (fst (run no_partner_lib 4 0 tt))
  /\ exists pre' g,
       firstn 6 (fst (run no_partner_lib 4 0 tt))
       = pre' ++ g :: map (printer PdoArray 8192) (indices 2 0)
       /\ granted g = Some (PdoArray, Triple 8192 2 64).
Proof.
  assert (HF : Forall stores_on_success
                 (fst (run no_partner_lib 4 0 tt))) by events_hold.
  assert (Htr : fst (run no_partner_lib 4 0 tt)
                = firstn 6 (fst (run no_partner_lib 4 0 tt))
                  ++ Ev_destroy_pdos (Triple 8192 2 64)
                  :: skipn 7 (fst (run no_partner_lib 4 0 tt)))
    by (vm_compute; reflexivity).
  split; [exact HF|]. split; [exact Htr|].
  exact (array_is_printed_first_to_last_then_released no_partner_lib 4 0
           tt _ _ _ PdoArray (Triple 8192 2 64) HF Htr eq_refl).
Defined.

